(** * video_dithering.py: the pixel-quantization engine

    A shallow embedding of [floyd_steinberg_dither], [atkinson_dither],
    [jarvis_judice_ninke_dither], [ordered_dither], [random_dither] and
    [apply_dithering], with NumPy's float32/float64 arithmetic given by the
    Standard Library's executable IEEE-754 specification [SpecFloat], NumPy
    arrays living in a heap of objects, and Python exceptions as an error
    monad. *)

From Stdlib Require Import ZArith Lia Bool List String.
From Stdlib Require Import Floats.SpecFloat.
From stdpp Require Import base option list sorting gmap strings.

Local Open Scope Z_scope.

(** ** IEEE-754 values

    A [spec_float] is a sign, a mantissa and an exponent; the operations of
    [SpecFloat] take the format as [prec] and [emax] and return mantissas in
    the canonical form of that format.  [SFcompare] orders two finite values
    by exponent first, so both sides of a comparison must be canonical in
    one common format: every change of format below is an explicit
    conversion, as NumPy's type promotion makes it. *)

Definition f32 := spec_float.
Definition f64 := spec_float.

Definition is_nan (x : spec_float) : bool :=
  match x with S754_nan => true | _ => false end.

(** Re-rounding a value into a format (the identity on the values the format
    already holds). *)
Definition round_to (prec emax : Z) (x : spec_float) : spec_float :=
  match x with
  | S754_finite s m e => binary_round prec emax s m e
  | _ => x
  end.

Module B32.
Definition prec := 24.
Definition emax := 128.
Definition of_Z (z : Z) : f32 := binary_normalize prec emax z 0 false.
Definition of_f64 (x : f64) : f32 := round_to prec emax x.
Definition add : f32 -> f32 -> f32 := SFadd prec emax.
Definition sub : f32 -> f32 -> f32 := SFsub prec emax.
Definition mul : f32 -> f32 -> f32 := SFmul prec emax.
Definition div : f32 -> f32 -> f32 := SFdiv prec emax.
(** [a > b] *)
Definition gt (a b : f32) : bool := SFltb b a.
End B32.

Module B64.
Definition prec := 53.
Definition emax := 1024.
Definition of_Z (z : Z) : f64 := binary_normalize prec emax z 0 false.
Definition of_f32 (x : f32) : f64 := round_to prec emax x.
Definition add : f64 -> f64 -> f64 := SFadd prec emax.
Definition sub : f64 -> f64 -> f64 := SFsub prec emax.
Definition mul : f64 -> f64 -> f64 := SFmul prec emax.
Definition div : f64 -> f64 -> f64 := SFdiv prec emax.
Definition sqrt : f64 -> f64 := SFsqrt prec emax.
Definition gt (a b : f64) : bool := SFltb b a.
(** [a >= b] *)
Definition ge (a b : f64) : bool := SFleb b a.
End B64.

(** [np.maximum] and [np.minimum] return NaN when either side is NaN. *)
Definition np_maximum (a b : spec_float) : spec_float :=
  if is_nan a then a else if is_nan b then b else if SFltb a b then b else a.
Definition np_minimum (a b : spec_float) : spec_float :=
  if is_nan a then a else if is_nan b then b else if SFltb b a then b else a.

(** [np.clip(x, 0, 255)] on a float32 and on a float64. *)
Definition clip32 (x : f32) : f32 :=
  np_minimum (np_maximum x (B32.of_Z 0)) (B32.of_Z 255).
Definition clip64 (x : f64) : f64 :=
  np_minimum (np_maximum x (B64.of_Z 0)) (B64.of_Z 255).

(** [.astype(np.uint8)] of a float in [0, 255]: the fraction is dropped.
    What the cast makes of a NaN is left to the platform; it is 0 here. *)
Definition to_uint8 (x : f32) : Z :=
  match x with
  | S754_finite false m e => Z.shiftl (Zpos m) e
  | _ => 0
  end.

(** ** Pixels: a float32 scalar, or an array of three of them *)

Definition rgb (A : Type) : Type := (A * A * A)%type.

Definition map3 {A B} (f : A -> B) (p : rgb A) : rgb B :=
  let '(r, g, b) := p in (f r, f g, f b).
Definition zip3 {A B C} (f : A -> B -> C) (p : rgb A) (q : rgb B) : rgb C :=
  let '(r, g, b) := p in let '(r', g', b') := q in (f r r', f g g', f b b').

(** The arithmetic the loops use, which NumPy overloads on scalars and on
    arrays: [a + b], [a - b], [a * s] and [a / s] for a scalar [s]. *)
Class Pixel (P : Type) := {
  padd : P -> P -> P;
  psub : P -> P -> P;
  pmul : P -> f32 -> P;
  pdiv : P -> f32 -> P
}.

#[global] Instance gray_pixel : Pixel f32 := {|
  padd := B32.add; psub := B32.sub; pmul := B32.mul; pdiv := B32.div |}.

#[global] Instance color_pixel : Pixel (rgb f32) := {|
  padd := zip3 B32.add;
  psub := zip3 B32.sub;
  pmul := fun p s => map3 (fun c => B32.mul c s) p;
  pdiv := fun p s => map3 (fun c => B32.div c s) p |}.

(** ** Exceptions and the state-and-error monad *)

Inductive exn := ValueError | IndexError | TypeError | ZeroDivisionError.

Inductive result (A : Type) := Ok (a : A) | Raise (e : exn).
Arguments Ok {A} a.
Arguments Raise {A} e.

(** A computation over a state [S]: the state is kept when it raises. *)
Definition M (S A : Type) : Type := S -> result A * S.

Definition ret {S A} (a : A) : M S A := fun s => (Ok a, s).
Definition raise {S A} (e : exn) : M S A := fun s => (Raise e, s).
Definition bind {S A B} (m : M S A) (k : A -> M S B) : M S B :=
  fun s => match m s with
           | (Ok a, s') => k a s'
           | (Raise e, s') => (Raise e, s')
           end.

#[global] Instance M_ret {S} : MRet (M S) := fun A => @ret S A.
#[global] Instance M_bind {S} : MBind (M S) := fun A B k m => @bind S A B m k.

(** [if c: body] *)
Definition when {S} (c : bool) (body : M S unit) : M S unit :=
  if c then body else ret tt.

(** [for i in l: body(i)] *)
Fixpoint for_each {S A} (l : list A) (body : A -> M S unit) : M S unit :=
  match l with
  | [] => ret tt
  | i :: l' => body i ;; for_each l' body
  end.

(** [for i in range(n): body(i)] *)
Definition for_range {S} (n : nat) (body : nat -> M S unit) : M S unit :=
  for_each (seq 0 n) body.

(** ** The accumulator of one call

    The loops of a call work on the array [img] and, in [random_dither],
    on the generator: [rng] holds the values the coming calls of
    [random()] return. *)

Record frame (P : Type) := Frame { px : list (list P); rng : nat -> f64 }.
Arguments Frame {P} px rng.
Arguments px {P} f.
Arguments rng {P} f.

Definition Local (P A : Type) : Type := M (frame P) A.

Section Accumulator.
Context {P : Type}.

(** [h, w = img.shape] *)
Definition shape : M (frame P) (nat * nat) := fun s =>
  (Ok (length (px s), match px s with r :: _ => length r | [] => 0%nat end), s).

(** [img[y, x]]; an index past the end raises IndexError. *)
Definition getpx (y x : nat) : M (frame P) P := fun s =>
  match px s !! y with
  | Some row =>
      match row !! x with
      | Some p => (Ok p, s)
      | None => (Raise IndexError, s)
      end
  | None => (Raise IndexError, s)
  end.

(** [img[y, x] = v] *)
Definition setpx (y x : nat) (v : P) : M (frame P) unit := fun s =>
  match px s !! y with
  | Some row =>
      match row !! x with
      | Some _ => (Ok tt, Frame (<[y := <[x := v]> row]> (px s)) (rng s))
      | None => (Raise IndexError, s)
      end
  | None => (Raise IndexError, s)
  end.

(** [img[y, x] += v] *)
Definition addpx `{Pixel P} (y x : nat) (v : P) : M (frame P) unit :=
  p ← getpx y x; setpx y x (padd p v).

(** [random.random()]: the next value of the generator *)
Definition random : M (frame P) f64 := fun s =>
  (Ok (rng s 0%nat), Frame (px s) (fun k => rng s (S k))).

(** [random.uniform(a, b)], which is [a + (b - a) * random()] *)
Definition uniform (a b : f64) : M (frame P) f64 :=
  u ← random; mret (B64.add a (B64.mul (B64.sub b a) u)).
End Accumulator.

(** An exception of a pure expression, raised in a computation *)
Definition lift {S A} (r : result A) : M S A := fun s => (r, s).

(** ** Palette matching *)

Definition default_palette : list (rgb Z) :=
  [ (0, 0, 0); (255, 255, 255); (255, 0, 0); (0, 255, 0);
    (0, 0, 255); (255, 255, 0); (255, 0, 255); (0, 255, 255) ].

(** The palette a function works with after its first statement:
    [if is_color and palette is None: palette = [...]] *)
Definition palette_or_default (is_color : bool) (palette : option (list (rgb Z)))
  : option (list (rgb Z)) :=
  match palette with
  | None => if is_color then Some default_palette else None
  | Some p => Some p
  end.

(** [np.linalg.norm(v)] of a float64 array of three: the square root of the
    dot product of [v] with itself. *)
Definition norm3 (v : rgb f64) : f64 :=
  let '(a, b, c) := v in
  B64.sqrt (B64.add (B64.add (B64.mul a a) (B64.mul b b)) (B64.mul c c)).

(** [[np.linalg.norm(pixel - np.array(color)) for color in palette]]: the
    integer array [np.array(color)] promotes the difference to float64. *)
Definition distances (pixel : rgb f64) (palette : list (rgb Z)) : list f64 :=
  map (fun color => norm3 (zip3 B64.sub pixel (map3 B64.of_Z color))) palette.

(** The scan of [np.argmin] over the elements after the first: [mp] is the
    least value so far and [min_ind] its index; an element replaces it when
    [not (element >= mp)], and a NaN ends the scan. *)
Fixpoint argmin_scan (mp : f64) (min_ind i : nat) (l : list f64) : nat :=
  match l with
  | [] => min_ind
  | d :: l' =>
      if negb (B64.ge d mp)
      then (if is_nan d then i else argmin_scan d i (S i) l')
      else argmin_scan mp min_ind (S i) l'
  end.

(** [np.argmin(l)]; ValueError on an empty sequence. *)
Definition np_argmin (l : list f64) : result nat :=
  match l with
  | [] => Raise ValueError
  | d :: l' => Ok (if is_nan d then 0%nat else argmin_scan d 0 1 l')
  end.

(** [np.array(palette[np.argmin(distances)], dtype=np.float32)] *)
Definition nearest_color {S} (palette : option (list (rgb Z))) (pixel : rgb f64)
  : M S (rgb f32) :=
  match palette with
  | None => raise TypeError
  | Some pal =>
      i ← lift (np_argmin (distances pixel pal));
      match pal !! i with
      | Some color => mret (map3 B32.of_Z color)
      | None => raise IndexError
      end
  end.

(** The quantization of [old_pixel] in the color branches *)
Definition quantize_color (palette : option (list (rgb Z))) (old_pixel : rgb f32)
  : M (frame (rgb f32)) (rgb f32) :=
  nearest_color palette (map3 B64.of_f32 old_pixel).

(** The quantization of [old_pixel] in the grayscale branches:
    [new_pixel = 255 if old_pixel > 128 else 0] *)
Definition quantize_gray (old_pixel : f32) : M (frame f32) f32 :=
  mret (if B32.gt old_pixel (B32.of_Z 128) then B32.of_Z 255 else B32.of_Z 0).

(** ** The error-diffusion loops

    The grayscale and the color branch of each function are the same text
    but for the quantization of [old_pixel]; [quantize] is that step, and
    the arithmetic is that of the pixel type. *)

Section Diffusion.
Context {P : Type} `{Pixel P}.
Variable quantize : P -> M (frame P) P.
Variable dither_strength : f32.

(** [error * n / d] *)
Definition weighted (error : P) (n d : Z) : P :=
  pdiv (pmul error (B32.of_Z n)) (B32.of_Z d).

Definition floyd_steinberg_pixel (h w y x : nat) : M (frame P) unit :=
  old_pixel ← getpx y x;
  new_pixel ← quantize old_pixel;
  setpx y x new_pixel;;
  let error := pmul (psub old_pixel new_pixel) dither_strength in
  when (x + 1 <? w)%nat
    (addpx y (x + 1) (weighted error 7 16));;
  when (y + 1 <? h)%nat
    (when (0 <? x)%nat
       (addpx (y + 1) (x - 1) (weighted error 3 16));;
     addpx (y + 1) x (weighted error 5 16);;
     when (x + 1 <? w)%nat
       (addpx (y + 1) (x + 1) (weighted error 1 16))).

Definition floyd_steinberg_loop : M (frame P) unit :=
  '(h, w) ← shape;
  for_range h (fun y => for_range w (fun x => floyd_steinberg_pixel h w y x)).

Definition atkinson_pixel (h w y x : nat) : M (frame P) unit :=
  old_pixel ← getpx y x;
  new_pixel ← quantize old_pixel;
  setpx y x new_pixel;;
  let error :=
    pdiv (pmul (psub old_pixel new_pixel) dither_strength) (B32.of_Z 8) in
  when (x + 1 <? w)%nat (addpx y (x + 1) error);;
  when (x + 2 <? w)%nat (addpx y (x + 2) error);;
  when (y + 1 <? h)%nat
    (when (0 <? x)%nat (addpx (y + 1) (x - 1) error);;
     addpx (y + 1) x error;;
     when (x + 1 <? w)%nat (addpx (y + 1) (x + 1) error));;
  when (y + 2 <? h)%nat (addpx (y + 2) x error).

Definition atkinson_loop : M (frame P) unit :=
  '(h, w) ← shape;
  for_range h (fun y => for_range w (fun x => atkinson_pixel h w y x)).

Definition jarvis_judice_ninke_pixel (h w y x : nat) : M (frame P) unit :=
  old_pixel ← getpx y x;
  new_pixel ← quantize old_pixel;
  setpx y x new_pixel;;
  let error := pmul (psub old_pixel new_pixel) dither_strength in
  when (x + 1 <? w)%nat (addpx y (x + 1) (weighted error 7 48));;
  when (x + 2 <? w)%nat (addpx y (x + 2) (weighted error 5 48));;
  when (y + 1 <? h)%nat
    (when (1 <? x)%nat (addpx (y + 1) (x - 2) (weighted error 3 48));;
     when (0 <? x)%nat (addpx (y + 1) (x - 1) (weighted error 5 48));;
     addpx (y + 1) x (weighted error 7 48);;
     when (x + 1 <? w)%nat (addpx (y + 1) (x + 1) (weighted error 5 48));;
     when (x + 2 <? w)%nat (addpx (y + 1) (x + 2) (weighted error 3 48)));;
  when (y + 2 <? h)%nat
    (when (1 <? x)%nat (addpx (y + 2) (x - 2) (weighted error 1 48));;
     when (0 <? x)%nat (addpx (y + 2) (x - 1) (weighted error 3 48));;
     addpx (y + 2) x (weighted error 5 48);;
     when (x + 1 <? w)%nat (addpx (y + 2) (x + 1) (weighted error 3 48));;
     when (x + 2 <? w)%nat (addpx (y + 2) (x + 2) (weighted error 1 48))).

Definition jarvis_judice_ninke_loop : M (frame P) unit :=
  '(h, w) ← shape;
  for_range h (fun y =>
    for_range w (fun x => jarvis_judice_ninke_pixel h w y x)).
End Diffusion.

(** ** Ordered dithering *)

Definition bayer2 : list (list Z) := [[0; 2]; [3; 1]].

Definition bayer4 : list (list Z) :=
  [ [0; 8; 2; 10];
    [12; 4; 14; 6];
    [3; 11; 1; 9];
    [15; 7; 13; 5] ].

Definition bayer8 : list (list Z) :=
  [ [0; 32; 8; 40; 2; 34; 10; 42];
    [48; 16; 56; 24; 50; 18; 58; 26];
    [12; 44; 4; 36; 14; 46; 6; 38];
    [60; 28; 52; 20; 62; 30; 54; 22];
    [3; 35; 11; 43; 1; 33; 9; 41];
    [51; 19; 59; 27; 49; 17; 57; 25];
    [15; 47; 7; 39; 13; 45; 5; 37];
    [63; 31; 55; 23; 61; 29; 53; 21] ].

(** [np.array(cells) / d] *)
Definition normalized (cells : list (list Z)) (d : Z) : list (list f64) :=
  map (map (fun k => B64.div (B64.of_Z k) (B64.of_Z d))) cells.

(** The [if matrix_size == 2: ... elif matrix_size == 4: ... else: ...] that
    picks the matrix: every other size gets the 8x8 one. *)
Definition bayer_matrix (matrix_size : Z) : list (list f64) :=
  if matrix_size =? 2 then normalized bayer2 4
  else if matrix_size =? 4 then normalized bayer4 16
  else normalized bayer8 64.

(** Python's [a % b] on integers: the sign of the divisor, and
    ZeroDivisionError for [b = 0]. *)
Definition py_mod (a b : Z) : result Z :=
  if b =? 0 then Raise ZeroDivisionError else Ok (a mod b).

(** NumPy's index into an axis of length [length l]: a negative index counts
    from the end, and one outside [-n, n) raises IndexError. *)
Definition np_index {A} (l : list A) (i : Z) : result A :=
  let n := Z.of_nat (length l) in
  let j := if i <? 0 then i + n else i in
  if (0 <=? j) && (j <? n) then
    match l !! Z.to_nat j with
    | Some a => Ok a
    | None => Raise IndexError
    end
  else Raise IndexError.

(** [bayer_matrix[y % matrix_size, x % matrix_size] * 255] *)
Definition bayer_threshold (matrix_size : Z) (y x : nat) : result f64 :=
  match py_mod (Z.of_nat y) matrix_size with
  | Raise e => Raise e
  | Ok i =>
      match py_mod (Z.of_nat x) matrix_size with
      | Raise e => Raise e
      | Ok j =>
          match np_index (bayer_matrix matrix_size) i with
          | Raise e => Raise e
          | Ok row =>
              match np_index row j with
              | Raise e => Raise e
              | Ok t => Ok (B64.mul t (B64.of_Z 255))
              end
          end
      end
  end.

(** [np.mean(old_pixel)] of a float32 array of three: the float32 sum,
    divided by the count. *)
Definition mean3 (p : rgb f32) : f32 :=
  let '(r, g, b) := p in
  B32.div (B32.add (B32.add r g) b) (B32.of_Z 3).

(** [np.array(palette[i], dtype=np.float32)] *)
Definition palette_entry {S} (pal : list (rgb Z)) (i : nat) : M S (rgb f32) :=
  match pal !! i with
  | Some color => mret (map3 B32.of_Z color)
  | None => raise IndexError
  end.

Definition ordered_pixel_color (matrix_size : Z) (palette : option (list (rgb Z)))
    (y x : nat) : M (frame (rgb f32)) unit :=
  threshold ← lift (bayer_threshold matrix_size y x);
  old_pixel ← getpx y x;
  new_pixel ←
    match palette with
    | None => raise TypeError
    | Some pal =>
        if (length pal =? 2)%nat then
          let gray_val := mean3 old_pixel in
          if B64.gt (B64.of_f32 gray_val) threshold
          then palette_entry pal 1
          else palette_entry pal 0
        else nearest_color palette (map3 B64.of_f32 old_pixel)
    end;
  setpx y x new_pixel.

Definition ordered_loop_color (matrix_size : Z) (palette : option (list (rgb Z)))
  : M (frame (rgb f32)) unit :=
  '(h, w) ← shape;
  for_range h (fun y =>
    for_range w (fun x => ordered_pixel_color matrix_size palette y x)).

Definition ordered_pixel_gray (matrix_size : Z) (y x : nat) : M (frame f32) unit :=
  threshold ← lift (bayer_threshold matrix_size y x);
  v ← getpx y x;
  setpx y x (if B64.gt (B64.of_f32 v) threshold then B32.of_Z 255 else B32.of_Z 0).

Definition ordered_loop_gray (matrix_size : Z) : M (frame f32) unit :=
  '(h, w) ← shape;
  for_range h (fun y =>
    for_range w (fun x => ordered_pixel_gray matrix_size y x)).

(** ** Random dithering *)

(** [np.random.uniform(a, b, 3)] *)
Definition uniform3 {P} (a b : f64) : M (frame P) (rgb f64) :=
  n0 ← uniform a b; n1 ← uniform a b; n2 ← uniform a b; mret (n0, n1, n2).

Definition random_pixel_color (threshold_variance : f64)
    (palette : option (list (rgb Z))) (y x : nat) : M (frame (rgb f32)) unit :=
  old_pixel ← getpx y x;
  noise ← uniform3 (SFopp threshold_variance) threshold_variance;
  let noisy_pixel := map3 clip64 (zip3 B64.add (map3 B64.of_f32 old_pixel) noise) in
  new_pixel ← nearest_color palette noisy_pixel;
  setpx y x new_pixel.

Definition random_loop_color (threshold_variance : f64)
    (palette : option (list (rgb Z))) : M (frame (rgb f32)) unit :=
  '(h, w) ← shape;
  for_range h (fun y =>
    for_range w (fun x => random_pixel_color threshold_variance palette y x)).

(** The float32 pixel is compared with the Python float [threshold], which
    the comparison takes at the pixel's precision. *)
Definition random_pixel_gray (threshold_variance : f64) (y x : nat)
  : M (frame f32) unit :=
  u ← uniform (SFopp threshold_variance) threshold_variance;
  let threshold := B64.add (B64.of_Z 128) u in
  v ← getpx y x;
  setpx y x (if B32.gt v (B32.of_f64 threshold) then B32.of_Z 255 else B32.of_Z 0).

Definition random_loop_gray (threshold_variance : f64) : M (frame f32) unit :=
  '(h, w) ← shape;
  for_range h (fun y =>
    for_range w (fun x => random_pixel_gray threshold_variance y x)).

(** ** Arrays as objects

    An array is an object of the heap, reached through a reference.  A call
    gets the reference of [image] and returns the reference of its result. *)

Inductive raster (A : Type) :=
  | Gray (rows : list (list A))
  | Color (rows : list (list (rgb A))).
Arguments Gray {A} rows.
Arguments Color {A} rows.

Definition raster_map {A B} (f : A -> B) (r : raster A) : raster B :=
  match r with
  | Gray rows => Gray (map (map f) rows)
  | Color rows => Color (map (map (map3 f)) rows)
  end.

(** An array of dtype uint8 or float32. *)
Inductive ndarray :=
  | U8 (d : raster Z)
  | F32 (d : raster f32).

Definition loc := positive.

(** The objects, and the values the generator is still to return. *)
Record world := World { heap : gmap loc ndarray; generator : nat -> f64 }.

(** A new object; its reference is one the heap does not hold. *)
Definition alloc (a : ndarray) : M world loc := fun σ =>
  let l := fresh (dom (heap σ)) in
  (Ok l, World (<[l := a]> (heap σ)) (generator σ)).

(** [image.astype(np.float32)]: always a new array. *)
Definition astype_float32 (image : loc) : M world loc := fun σ =>
  match heap σ !! image with
  | Some (U8 d) => alloc (F32 (raster_map B32.of_Z d)) σ
  | Some (F32 d) => alloc (F32 d) σ
  | None => (Raise TypeError, σ)
  end.

(** [np.clip(img, 0, 255).astype(np.uint8)]: a new array again. *)
Definition clip_astype_uint8 (img : loc) : M world loc := fun σ =>
  match heap σ !! img with
  | Some (F32 d) => alloc (U8 (raster_map (fun v => to_uint8 (clip32 v)) d)) σ
  | Some (U8 d) => alloc (U8 d) σ
  | None => (Raise TypeError, σ)
  end.

(** [h, w = img.shape] followed by loops that work on [img] in place: the
    unpacking raises ValueError when [img] has three axes. *)
Definition in_place_gray {A} (img : loc) (loops : M (frame f32) A) : M world A :=
  fun σ =>
    match heap σ !! img with
    | Some (F32 (Gray rows)) =>
        let '(r, s) := loops (Frame rows (generator σ)) in
        (r, World (<[img := F32 (Gray (px s))]> (heap σ)) (rng s))
    | Some (F32 (Color _)) => (Raise ValueError, σ)
    | _ => (Raise TypeError, σ)
    end.

(** [h, w, c = img.shape] followed by loops that work on [img] in place: the
    unpacking raises ValueError when [img] has two axes. *)
Definition in_place_color {A} (img : loc) (loops : M (frame (rgb f32)) A)
  : M world A :=
  fun σ =>
    match heap σ !! img with
    | Some (F32 (Color rows)) =>
        let '(r, s) := loops (Frame rows (generator σ)) in
        (r, World (<[img := F32 (Color (px s))]> (heap σ)) (rng s))
    | Some (F32 (Gray _)) => (Raise ValueError, σ)
    | _ => (Raise TypeError, σ)
    end.

(** ** The five functions and the dispatcher

    A Python float that meets a float32 in an operation is taken at float32
    (NumPy 2's promotion), so [dither_strength] is. *)

Definition floyd_steinberg_dither (image : loc) (dither_strength : f64)
    (is_color : bool) (palette : option (list (rgb Z))) : M world loc :=
  let palette := palette_or_default is_color palette in
  img ← astype_float32 image;
  (if is_color
   then in_place_color img
          (floyd_steinberg_loop (quantize_color palette) (B32.of_f64 dither_strength))
   else in_place_gray img
          (floyd_steinberg_loop quantize_gray (B32.of_f64 dither_strength)));;
  clip_astype_uint8 img.

Definition atkinson_dither (image : loc) (dither_strength : f64)
    (is_color : bool) (palette : option (list (rgb Z))) : M world loc :=
  let palette := palette_or_default is_color palette in
  img ← astype_float32 image;
  (if is_color
   then in_place_color img
          (atkinson_loop (quantize_color palette) (B32.of_f64 dither_strength))
   else in_place_gray img
          (atkinson_loop quantize_gray (B32.of_f64 dither_strength)));;
  clip_astype_uint8 img.

Definition jarvis_judice_ninke_dither (image : loc) (dither_strength : f64)
    (is_color : bool) (palette : option (list (rgb Z))) : M world loc :=
  let palette := palette_or_default is_color palette in
  img ← astype_float32 image;
  (if is_color
   then in_place_color img
          (jarvis_judice_ninke_loop (quantize_color palette)
             (B32.of_f64 dither_strength))
   else in_place_gray img
          (jarvis_judice_ninke_loop quantize_gray (B32.of_f64 dither_strength)));;
  clip_astype_uint8 img.

Definition ordered_dither (image : loc) (matrix_size : Z)
    (is_color : bool) (palette : option (list (rgb Z))) : M world loc :=
  let palette := palette_or_default is_color palette in
  img ← astype_float32 image;
  (if is_color
   then in_place_color img (ordered_loop_color matrix_size palette)
   else in_place_gray img (ordered_loop_gray matrix_size));;
  clip_astype_uint8 img.

Definition random_dither (image : loc) (threshold_variance : f64)
    (is_color : bool) (palette : option (list (rgb Z))) : M world loc :=
  let palette := palette_or_default is_color palette in
  img ← astype_float32 image;
  (if is_color
   then in_place_color img (random_loop_color threshold_variance palette)
   else in_place_gray img (random_loop_gray threshold_variance));;
  clip_astype_uint8 img.

(** The keyword arguments [**kwargs] of [apply_dithering]: each is given or
    absent. *)
Record kwargs := Kwargs {
  kw_dither_strength : option f64;
  kw_matrix_size : option Z;
  kw_threshold_variance : option f64;
  kw_palette : option (list (rgb Z))
}.

(** The default of a parameter that [kwargs] does not give *)
Definition default_strength : f64 := B64.of_Z 1.
Definition default_matrix_size : Z := 4.
Definition default_variance : f64 := B64.of_Z 50.

(** [f(image, is_color=is_color, **kwargs)] for the three diffusion
    functions: a keyword [f] does not have raises TypeError. *)
Definition call_diffusion (f : loc -> f64 -> bool -> option (list (rgb Z)) -> M world loc)
    (image : loc) (is_color : bool) (kw : kwargs) : M world loc :=
  match kw_matrix_size kw, kw_threshold_variance kw with
  | None, None =>
      f image (default default_strength (kw_dither_strength kw)) is_color
        (kw_palette kw)
  | _, _ => raise TypeError
  end.

Definition call_ordered (image : loc) (is_color : bool) (kw : kwargs) : M world loc :=
  match kw_dither_strength kw, kw_threshold_variance kw with
  | None, None =>
      ordered_dither image (default default_matrix_size (kw_matrix_size kw))
        is_color (kw_palette kw)
  | _, _ => raise TypeError
  end.

Definition call_random (image : loc) (is_color : bool) (kw : kwargs) : M world loc :=
  match kw_dither_strength kw, kw_matrix_size kw with
  | None, None =>
      random_dither image (default default_variance (kw_threshold_variance kw))
        is_color (kw_palette kw)
  | _, _ => raise TypeError
  end.

Definition apply_dithering (image : loc) (method : string) (is_color : bool)
    (kw : kwargs) : M world loc :=
  if String.eqb method "floyd_steinberg" then
    call_diffusion floyd_steinberg_dither image is_color kw
  else if String.eqb method "atkinson" then
    call_diffusion atkinson_dither image is_color kw
  else if String.eqb method "jarvis_judice_ninke" then
    call_diffusion jarvis_judice_ninke_dither image is_color kw
  else if String.eqb method "ordered" then
    call_ordered image is_color kw
  else if String.eqb method "random" then
    call_random image is_color kw
  else raise ValueError.

(** ** Grids

    A NumPy array of two axes is a rectangle: every row has the width of
    the first. *)

Definition width {A} (img : list (list A)) : nat :=
  match img with r :: _ => length r | [] => 0%nat end.

Definition rect {A} (img : list (list A)) : Prop :=
  Forall (fun r => length r = width img) img.

Definition lookup2 {A} (img : list (list A)) (y x : nat) : option A :=
  img !! y ≫= (fun row => row !! x).

Definition alter2 {A} (f : A -> A) (y x : nat) (img : list (list A))
  : list (list A) :=
  alter (alter f x) y img.

(** ** The error-diffusion engine of the specification

    One scan in row-major order, parameterized by a kernel table: each
    entry is an offset [(dy, dx)] and the share of the error it receives.
    An offset that leaves the raster is skipped. *)

Definition in_bounds (h w : nat) (ty tx : Z) : bool :=
  (0 <=? ty) && (ty <? Z.of_nat h) && (0 <=? tx) && (tx <? Z.of_nat w).

Section Engine.
Context {P : Type} `{Pixel P}.
Variable quantized : P -> P.
Variable error_of : P -> P -> P.
Variable kernel : list (Z * Z * (P -> P)).

Definition deposit (h w y x : nat) (error : P) (img : list (list P))
    (entry : Z * Z * (P -> P)) : list (list P) :=
  let '(dy, dx, share) := entry in
  let ty := Z.of_nat y + dy in
  let tx := Z.of_nat x + dx in
  if in_bounds h w ty tx
  then alter2 (fun p => padd p (share error)) (Z.to_nat ty) (Z.to_nat tx) img
  else img.

Definition diffuse_pixel (h w : nat) (img : list (list P)) (yx : nat * nat)
  : list (list P) :=
  let '(y, x) := yx in
  match lookup2 img y x with
  | None => img
  | Some old =>
      let new := quantized old in
      foldl (deposit h w y x (error_of old new))
        (alter2 (fun _ => new) y x img) kernel
  end.

(** The pixels of an [h] by [w] raster in row-major order *)
Definition positions (h w : nat) : list (nat * nat) :=
  flat_map (fun y => map (pair y) (seq 0 w)) (seq 0 h).

Definition diffuse (img : list (list P)) : list (list P) :=
  foldl (diffuse_pixel (length img) (width img)) img
    (positions (length img) (width img)).
End Engine.

(** The kernel tables.  A share is written as the source computes it:
    [error * n / d], and for Atkinson the error itself, which the source
    has divided by 8 beforehand. *)

Definition floyd_steinberg_kernel {P} `{Pixel P} : list (Z * Z * (P -> P)) :=
  [ (0, 1, fun e => weighted e 7 16);
    (1, -1, fun e => weighted e 3 16);
    (1, 0, fun e => weighted e 5 16);
    (1, 1, fun e => weighted e 1 16) ].

Definition atkinson_offsets : list (Z * Z) :=
  [ (0, 1); (0, 2); (1, -1); (1, 0); (1, 1); (2, 0) ].

Definition atkinson_kernel {P} `{Pixel P} : list (Z * Z * (P -> P)) :=
  map (fun o => (o, fun e : P => e)) atkinson_offsets.

Definition jarvis_judice_ninke_kernel {P} `{Pixel P} : list (Z * Z * (P -> P)) :=
  [ (0, 1, fun e => weighted e 7 48);
    (0, 2, fun e => weighted e 5 48);
    (1, -2, fun e => weighted e 3 48);
    (1, -1, fun e => weighted e 5 48);
    (1, 0, fun e => weighted e 7 48);
    (1, 1, fun e => weighted e 5 48);
    (1, 2, fun e => weighted e 3 48);
    (2, -2, fun e => weighted e 1 48);
    (2, -1, fun e => weighted e 3 48);
    (2, 0, fun e => weighted e 5 48);
    (2, 1, fun e => weighted e 3 48);
    (2, 2, fun e => weighted e 1 48) ].

(** [error = (old_pixel - new_pixel) * dither_strength], and Atkinson's
    [error = (old_pixel - new_pixel) * dither_strength / 8] *)
Definition scaled_error {P} `{Pixel P} (dither_strength : f32) (old new : P) : P :=
  pmul (psub old new) dither_strength.
Definition eighth_error {P} `{Pixel P} (dither_strength : f32) (old new : P) : P :=
  pdiv (pmul (psub old new) dither_strength) (B32.of_Z 8).

(** The entry [nearest_color] returns, as a value *)
Definition nearest_index (pal : list (rgb Z)) (pixel : rgb f64) : nat :=
  match np_argmin (distances pixel pal) with
  | Ok i => i
  | Raise _ => 0%nat
  end.

Definition nearest_entry (pal : list (rgb Z)) (pixel : rgb f64) : rgb f32 :=
  match pal !! nearest_index pal pixel with
  | Some color => map3 B32.of_Z color
  | None => map3 B32.of_Z (0, 0, 0)
  end.

Definition gray_level (old_pixel : f32) : f32 :=
  if B32.gt old_pixel (B32.of_Z 128) then B32.of_Z 255 else B32.of_Z 0.

(** A rectangle of [h] rows and [w] columns *)
Definition grid {A} (h w : nat) (img : list (list A)) : Prop :=
  rect img /\ length img = h /\ width img = w.

(** The scan order: [a] is visited before [b] *)
Definition scan_lt (a b : nat * nat) : Prop :=
  (a.1 < b.1)%nat \/ (a.1 = b.1 /\ (a.2 < b.2)%nat).

(** A kernel only reaches pixels the scan has yet to visit. *)
Definition forward {P} (kernel : list (Z * Z * (P -> P))) : Prop :=
  Forall (fun entry => 0 < entry.1.1 \/ (entry.1.1 = 0 /\ 0 < entry.1.2)) kernel.

(** ** Calls

    [returns m σ a]: from the world [σ] the call [m] returns normally, and
    the reference it returns is that of the array [a]. *)
Definition returns (m : M world loc) (σ : world) (a : ndarray) : Prop :=
  exists l σ', m σ = (Ok l, σ') /\ heap σ' !! l = Some a.

(** [np.clip(v, 0, 255).astype(np.uint8)] on one element *)
Definition clip_uint8 (v : f32) : Z := to_uint8 (clip32 v).

(** A check of all the integers [0, 1, ..., n - 1] *)
Definition all_below (n : nat) (f : Z -> bool) : bool :=
  forallb f (map Z.of_nat (seq 0 n)).

(** The integer cells of the matrix [bayer_matrix] picks, and the number
    they are divided by. *)
Definition bayer_cells (matrix_size : Z) : list (list Z) :=
  if matrix_size =? 2 then bayer2
  else if matrix_size =? 4 then bayer4
  else bayer8.

Definition bayer_denominator (matrix_size : Z) : Z :=
  if matrix_size =? 2 then 4 else if matrix_size =? 4 then 16 else 64.

(** [f] applied to every pixel of a raster, with its row and column *)
Definition imap2 {A B} (f : nat -> nat -> A -> B) (img : list (list A))
  : list (list B) :=
  imap (fun y row => imap (fun x p => f y x p) row) img.

(** ** The value each pixel gets in the ordered and the random loops *)

(** The threshold of a pixel, when the matrix has that cell *)
Definition threshold_at (matrix_size : Z) (y x : nat) : f64 :=
  match bayer_threshold matrix_size y x with
  | Ok t => t
  | Raise _ => S754_nan
  end.

Definition ordered_level (matrix_size : Z) (y x : nat) (v : f32) : f32 :=
  if B64.gt (B64.of_f32 v) (threshold_at matrix_size y x)
  then B32.of_Z 255 else B32.of_Z 0.

Definition entry_at (pal : list (rgb Z)) (i : nat) : rgb f32 :=
  match pal !! i with
  | Some color => map3 B32.of_Z color
  | None => map3 B32.of_Z (0, 0, 0)
  end.

Definition ordered_entry (matrix_size : Z) (pal : list (rgb Z)) (y x : nat)
    (old_pixel : rgb f32) : rgb f32 :=
  if (length pal =? 2)%nat then
    if B64.gt (B64.of_f32 (mean3 old_pixel)) (threshold_at matrix_size y x)
    then entry_at pal 1 else entry_at pal 0
  else nearest_entry pal (map3 B64.of_f32 old_pixel).

(** [a + (b - a) * u] for [a = -threshold_variance], [b = threshold_variance] *)
Definition noise_of (threshold_variance u : f64) : f64 :=
  B64.add (SFopp threshold_variance)
    (B64.mul (B64.sub threshold_variance (SFopp threshold_variance)) u).

Definition random_level (threshold_variance u : f64) (v : f32) : f32 :=
  if B32.gt v (B32.of_f64 (B64.add (B64.of_Z 128) (noise_of threshold_variance u)))
  then B32.of_Z 255 else B32.of_Z 0.

Definition random_entry (threshold_variance : f64) (pal : list (rgb Z))
    (u : rgb f64) (old_pixel : rgb f32) : rgb f32 :=
  nearest_entry pal
    (map3 clip64 (zip3 B64.add (map3 B64.of_f32 old_pixel)
                    (map3 (noise_of threshold_variance) u))).

(** The generator after [n] calls of [random()] *)
Definition drawn {A} (n : nat) (g : nat -> A) : nat -> A := fun k => g (n + k)%nat.

(** ** Well-formed inputs and the shape of results *)

(** [a.shape] *)
Definition raster_shape {A} (d : raster A) : list nat :=
  match d with
  | Gray rows => [length rows; width rows]
  | Color rows => [length rows; width rows; 3%nat]
  end.

(** The array is a rectangle, of the number of axes the mode expects. *)
Definition raster_ok {A} (is_color : bool) (d : raster A) : Prop :=
  match d with
  | Gray rows => is_color = false /\ rect rows
  | Color rows => is_color = true /\ rect rows
  end.

Definition channel_ok (v : Z) : Prop := 0 <= v <= 255.

Definition color_ok (color : rgb Z) : Prop :=
  channel_ok color.1.1 /\ channel_ok color.1.2 /\ channel_ok color.2.

(** A palette of the data model: not empty, its entries 8-bit colors. *)
Definition palette_ok (palette : option (list (rgb Z))) : Prop :=
  match palette with
  | None => True
  | Some pal => pal <> [] /\ Forall color_ok pal
  end.

(** The palette in force: the one given, or the default 8-color set. *)
Definition active_palette (palette : option (list (rgb Z))) : list (rgb Z) :=
  default default_palette palette.

(** Every pixel is of the palette: 0 or 255 in grayscale mode, an entry of
    the active palette in color mode. *)
Definition in_palette (palette : option (list (rgb Z))) (d : raster Z) : Prop :=
  match d with
  | Gray rows => forall row v, row ∈ rows -> v ∈ row -> v = 0 \/ v = 255
  | Color rows =>
      forall row p, row ∈ rows -> p ∈ row -> p ∈ active_palette palette
  end.

(** The call returns an array of the shape of [d] with every pixel of the
    palette. *)
Definition dithers (call : M world loc) (σ : world) (d : raster Z)
    (is_color : bool) (palette : option (list (rgb Z))) : Prop :=
  exists out,
    returns call σ (U8 out) /\
    raster_ok is_color out /\
    raster_shape out = raster_shape d /\
    in_palette palette out.

(** The loops end normally on every [h] by [w] rectangle, keep its shape,
    and leave in every pixel a value that satisfies [Q]. *)
Definition quantizes {P} (h w : nat) (Q : P -> Prop) (loops : M (frame P) unit)
  : Prop :=
  forall img r, grid h w img ->
    exists out r',
      loops (Frame img r) = (Ok tt, Frame out r') /\
      grid h w out /\
      forall y x v, lookup2 out y x = Some v -> Q v.

Definition black_or_white (v : f32) : Prop :=
  v = B32.of_Z 255 \/ v = B32.of_Z 0.

Definition entry_of (pal : list (rgb Z)) (v : rgb f32) : Prop :=
  exists color, color ∈ pal /\ v = map3 B32.of_Z color.

(** The method names [apply_dithering] knows *)
Definition methods : list string :=
  [ "floyd_steinberg"; "atkinson"; "jarvis_judice_ninke"; "ordered"; "random" ]%string.

Definition diffusion_methods : list string :=
  [ "floyd_steinberg"; "atkinson"; "jarvis_judice_ninke" ]%string.

(** The keywords given are parameters of the method's function. *)
Definition accepts (method : string) (kw : kwargs) : Prop :=
  (is_Some (kw_dither_strength kw) -> method ∈ diffusion_methods) /\
  (is_Some (kw_matrix_size kw) -> method = "ordered"%string) /\
  (is_Some (kw_threshold_variance kw) -> method = "random"%string).

(** The parameter values of the interface: a matrix size of 2, 4 or 8 and
    a palette of the data model. *)
Definition valid_kwargs (method : string) (kw : kwargs) : Prop :=
  accepts method kw /\
  (forall m, kw_matrix_size kw = Some m -> m = 2 \/ m = 4 \/ m = 8) /\
  palette_ok (kw_palette kw).

(** Every pixel of an [h] by [w] raster has a cell of the matrix. *)
Definition thresholds_exist (h w : nat) (matrix_size : Z) : Prop :=
  forall y x, (y < h)%nat -> (x < w)%nat ->
    exists t, bayer_threshold matrix_size y x = Ok t.

(** The matrix size [ordered_dither] is called with *)
Definition matrix_size_of (kw : kwargs) : Z :=
  default default_matrix_size (kw_matrix_size kw).

(** A raster of one pixel, or of two rows of two *)
Definition small_raster (rows : list (list Z)) : Prop :=
  (exists a, rows = [[a]]) \/ (exists a b c d, rows = [[a; b]; [c; d]]).

(** ** Inputs of the test suite *)

Definition small_image : list (list Z) := [[100; 150]; [200; 50]].
Definition single_pixel : list (list Z) := [[128]].

(** A generator whose [random()] always returns 0.0 *)
Definition silent : nat -> f64 := fun _ => S754_zero false.

(** A world with one array, at reference 1 *)
Definition world_of (a : ndarray) : world := World {[ 1%positive := a ]} silent.

Definition no_kwargs : kwargs := Kwargs None None None None.

(** ** The objects a call leaves alone

    [keeps σ run]: every object of [σ] is in the world after the call with
    the value it had, and a reference the call returns is not one of [σ]. *)
Definition keeps {A} (σ : world) (run : result A * world) : Prop :=
  heap σ ⊆ heap run.2.

Definition returns_new (σ : world) (run : result loc * world) : Prop :=
  match run.1 with
  | Ok l => heap σ !! l = None
  | Raise _ => True
  end.

(** ** Floyd-Steinberg as the specification words it

    A float accumulator initialized from the input; the pixels visited in
    row-major order; each quantized to 255 if its accumulated value is
    greater than 128, else to 0; the error, (accumulated value - quantized
    value) x dither_strength, added as error x 7/16 to (y, x+1), x 3/16 to
    (y+1, x-1), x 5/16 to (y+1, x) and x 1/16 to (y+1, x+1), an offset
    outside the raster skipped; the accumulator clamped to [0, 255] and
    returned as 8-bit integers.  A share [error x n/16] is the float32
    value of [error * n / 16], evaluated from the left. *)

Definition spec_floyd_steinberg_kernel : list (Z * Z * (f32 -> f32)) :=
  [ (0, 1, fun error => B32.div (B32.mul error (B32.of_Z 7)) (B32.of_Z 16));
    (1, -1, fun error => B32.div (B32.mul error (B32.of_Z 3)) (B32.of_Z 16));
    (1, 0, fun error => B32.div (B32.mul error (B32.of_Z 5)) (B32.of_Z 16));
    (1, 1, fun error => B32.div (B32.mul error (B32.of_Z 1)) (B32.of_Z 16)) ].

Definition spec_floyd_steinberg (dither_strength : f64) (rows : list (list Z))
  : list (list Z) :=
  let accumulator := map (map B32.of_Z) rows in
  let quantized v := if SFltb (B32.of_Z 128) v then B32.of_Z 255 else B32.of_Z 0 in
  let error_of old new :=
    B32.mul (B32.sub old new) (B32.of_f64 dither_strength) in
  map (map (fun v => to_uint8 (clip32 v)))
    (diffuse quantized error_of spec_floyd_steinberg_kernel accumulator).

(** ** Plain thresholding: 255 if the input value is greater than 128 *)

Definition threshold_pixel (v : Z) : Z := if 128 <? v then 255 else 0.

Definition thresholded (rows : list (list Z)) : list (list Z) :=
  map (map threshold_pixel) rows.

(** The pixels are 8-bit values. *)
Definition uint8_raster (rows : list (list Z)) : Prop :=
  forall row v, row ∈ rows -> v ∈ row -> 0 <= v <= 255.

(** A float32 that holds an 8-bit value *)
Definition uint8_float (p : f32) : Prop := exists v, 0 <= v <= 255 /\ p = B32.of_Z v.

Definition is_zero (x : spec_float) : bool :=
  match x with S754_zero _ => true | _ => false end.

Definition spec_float_eqb (x y : spec_float) : bool :=
  match x, y with
  | S754_zero s, S754_zero s' => Bool.eqb s s'
  | S754_infinity s, S754_infinity s' => Bool.eqb s s'
  | S754_nan, S754_nan => true
  | S754_finite s m e, S754_finite s' m' e' =>
      Bool.eqb s s' && Pos.eqb m m' && Z.eqb e e'
  | _, _ => false
  end.

(** [dither_strength = 0.0] *)
Definition zero_strength : f64 := S754_zero false.

(** Every pixel of the accumulator satisfies [good]. *)
Definition all_good {P} (good : P -> Prop) (img : list (list P)) : Prop :=
  forall y x p, lookup2 img y x = Some p -> good p.

(** ** One Atkinson step, pixel by pixel

    [img'] is [img] after the step at [(y, x)]: the pixel holds [new];
    each pixel at one of the six offsets holds [e] more than before; every
    other pixel is as before. *)
Definition atkinson_spread {P} `{Pixel P} (y x : nat) (new e : P)
    (img img' : list (list P)) : Prop :=
  lookup2 img' y x = Some new /\
  (forall dy dx y' x',
     (dy, dx) ∈ atkinson_offsets ->
     Z.of_nat y' = Z.of_nat y + dy -> Z.of_nat x' = Z.of_nat x + dx ->
     lookup2 img' y' x' = (fun p => padd p e) <$> lookup2 img y' x') /\
  (forall y' x',
     (y', x') <> (y, x) ->
     (Z.of_nat y' - Z.of_nat y, Z.of_nat x' - Z.of_nat x) ∉ atkinson_offsets ->
     lookup2 img' y' x' = lookup2 img y' x').

(** ** Ordered dithering in exact arithmetic

    The cell of a pixel is [bayer[y mod size][x mod size]] of the integer
    matrix.  The threshold is [cell / denominator * 255]; an 8-bit value
    [v] is greater when [v * denominator > cell * 255]. *)

Definition bayer_cell (matrix_size : Z) (y x : nat) : Z :=
  default 0
    (lookup2 (bayer_cells matrix_size)
       (Z.to_nat (Z.of_nat y mod matrix_size))
       (Z.to_nat (Z.of_nat x mod matrix_size))).

Definition above_threshold (matrix_size : Z) (y x : nat) (v : Z) : bool :=
  bayer_cell matrix_size y x * 255 <? v * bayer_denominator matrix_size.

Definition spec_ordered_pixel (matrix_size : Z) (y x : nat) (v : Z) : Z :=
  if above_threshold matrix_size y x v then 255 else 0.

Definition spec_ordered (matrix_size : Z) (rows : list (list Z)) : list (list Z) :=
  imap2 (spec_ordered_pixel matrix_size) rows.

(** The sizes the interface allows *)
Definition matrix_size_ok (m : Z) : Prop := m = 2 \/ m = 4 \/ m = 8.

(** ** The order of floats

    A position on the extended real line for every value but NaN: the
    sign class, then the exponent, then the mantissa, the last two
    reversed below zero.  [SFcompare] is the lexicographic order of these
    keys. *)

Definition float_key (x : spec_float) : Z * Z * Z :=
  match x with
  | S754_infinity true => (-2, 0, 0)
  | S754_finite true m e => (-1, - e, Zneg m)
  | S754_zero _ => (0, 0, 0)
  | S754_finite false m e => (1, e, Zpos m)
  | S754_infinity false => (2, 0, 0)
  | S754_nan => (3, 0, 0)
  end.

Definition key_lt (a b : Z * Z * Z) : Prop :=
  a.1.1 < b.1.1 \/
  (a.1.1 = b.1.1 /\ (a.1.2 < b.1.2 \/ (a.1.2 = b.1.2 /\ a.2 < b.2))).

Definition key_le (a b : Z * Z * Z) : Prop := key_lt a b \/ a = b.

(** [x < y] and [x <= y] as the comparison of floats decides them *)
Definition float_lt (x y : spec_float) : Prop := SFltb x y = true.
Definition float_le (x y : spec_float) : Prop := SFleb x y = true.

(** A value with the sign [s]: a zero, a finite value or an infinity *)
Definition signed (s : bool) (x : spec_float) : Prop :=
  match x with
  | S754_zero s' | S754_infinity s' | S754_finite s' _ _ => s' = s
  | S754_nan => False
  end.

Definition finite_or_zero (x : spec_float) : Prop :=
  match x with
  | S754_zero _ | S754_finite _ _ _ => True
  | _ => False
  end.

(** [k] is the index of the first least element of [ds] among the first
    [n]. *)
Definition first_least (ds : list spec_float) (n k : nat) : Prop :=
  (k < n)%nat /\
  exists mp, ds !! k = Some mp /\
    forall j d, (j < n)%nat -> ds !! j = Some d ->
      float_le mp d /\ ((j < k)%nat -> float_lt mp d).

(** ** Ordered dithering in color, pixel by pixel *)

(** The float64 values of an 8-bit color, as the distance takes them *)
Definition pixel64 (p : rgb Z) : rgb f64 := map3 (fun v => B64.of_f32 (B32.of_Z v)) p.

(** [mean > threshold] in exact arithmetic: the mean of the channels is
    [(r + g + b) / 3] and the threshold [cell / denominator * 255]. *)
Definition mean_above (matrix_size : Z) (y x : nat) (p : rgb Z) : bool :=
  bayer_cell matrix_size y x * 255 * 3
  <? (p.1.1 + p.1.2 + p.2) * bayer_denominator matrix_size.

(** The index of the palette entry a pixel gets *)
Definition spec_ordered_index (matrix_size : Z) (pal : list (rgb Z)) (y x : nat)
    (p : rgb Z) : nat :=
  if (length pal =? 2)%nat then
    if mean_above matrix_size y x p then 1%nat else 0%nat
  else nearest_index pal (pixel64 p).

Definition spec_ordered_color (matrix_size : Z) (pal : list (rgb Z)) (y x : nat)
    (p : rgb Z) : rgb Z :=
  default (0, 0, 0) (pal !! spec_ordered_index matrix_size pal y x p).

Definition uint8_color_raster (rows : list (list (rgb Z))) : Prop :=
  forall row p, row ∈ rows -> p ∈ row -> color_ok p.

(** The checks behind the exact form of [mean > threshold]: the float32
    sums of 8-bit values are exact, and the comparison of the float32
    mean with the float64 threshold is that of the exact values. *)
Definition sum_check (n : nat) (a : Z) : bool :=
  all_below n (fun b =>
    spec_float_eqb (B32.add (B32.of_Z a) (B32.of_Z b)) (B32.of_Z (a + b))).

Definition mean_check (den k : Z) : bool :=
  let t := B64.mul (B64.div (B64.of_Z k) (B64.of_Z den)) (B64.of_Z 255) in
  all_below 766 (fun s =>
    Bool.eqb (B64.gt (B64.of_f32 (B32.div (B32.of_Z s) (B32.of_Z 3))) t)
             (k * 255 * 3 <? s * den)).

(** * Properties *)

(** ** Running a computation *)

Lemma run_bind {S A B} (m : M S A) (k : A -> M S B) (s : S) :
  (m ≫= k) s =
  match m s with
  | (Ok a, s') => k a s'
  | (Raise e, s') => (Raise e, s')
  end.
Proof. reflexivity. Qed.

Lemma run_bind_ok {S A B} (m : M S A) (k : A -> M S B) (s s' : S) (a : A) :
  m s = (Ok a, s') -> (m ≫= k) s = k a s'.
Proof. intros Hm. rewrite run_bind, Hm. reflexivity. Qed.

Lemma run_bind_raise {S A B} (m : M S A) (k : A -> M S B) (s s' : S) e :
  m s = (Raise e, s') -> (m ≫= k) s = (Raise e, s').
Proof. intros Hm. rewrite run_bind, Hm. reflexivity. Qed.

Lemma run_for_each_app {S A} (l1 l2 : list A) (body : A -> M S unit) (s s1 : S) :
  for_each l1 body s = (Ok tt, s1) ->
  for_each (l1 ++ l2) body s = for_each l2 body s1.
Proof.
  revert s. induction l1 as [|i l1 IH]; intros s; simpl.
  - intros [= ->]. reflexivity.
  - rewrite !run_bind. destruct (body i s) as [[[]|e] s0]; [|discriminate].
    apply IH.
Qed.

(** ** Grids *)

Lemma lookup2_Some {A} (img : list (list A)) y x p :
  lookup2 img y x = Some p <-> exists row, img !! y = Some row /\ row !! x = Some p.
Proof.
  unfold lookup2. destruct (img !! y) as [row|]; simpl.
  - split; [eauto|]. intros (row' & [= <-] & Hp). exact Hp.
  - split; [discriminate|]. intros (row' & [=] & _).
Qed.

Lemma rect_row {A} (img : list (list A)) y row :
  rect img -> img !! y = Some row -> length row = width img.
Proof.
  intros Hr Hy. unfold rect in Hr. rewrite Forall_lookup in Hr. eauto.
Qed.

Lemma lookup2_is_Some {A} (img : list (list A)) y x :
  rect img ->
  is_Some (lookup2 img y x) <-> (y < length img)%nat /\ (x < width img)%nat.
Proof.
  intros Hr. split.
  - intros [p Hp]. apply lookup2_Some in Hp as (row & Hy & Hx).
    split; [eapply lookup_lt_Some; eauto|].
    rewrite <- (rect_row img y row) by assumption. eapply lookup_lt_Some; eauto.
  - intros [Hy Hx]. destruct (lookup_lt_is_Some_2 img y Hy) as [row Hrow].
    assert (Hlen := rect_row img y row Hr Hrow).
    destruct (lookup_lt_is_Some_2 row x) as [p Hp]; [lia|].
    exists p. apply lookup2_Some. eauto.
Qed.

Lemma lookup2_alter2 {A} (f : A -> A) (img : list (list A)) y x y' x' :
  lookup2 (alter2 f y x img) y' x' =
  if decide (y = y' /\ x = x') then f <$> lookup2 img y x else lookup2 img y' x'.
Proof.
  unfold lookup2, alter2. destruct (decide (y = y')) as [<-|Hy].
  - rewrite list_lookup_alter_eq. destruct (img !! y) as [row|]; simpl.
    + destruct (decide (x = x')) as [<-|Hx].
      * rewrite list_lookup_alter_eq. rewrite decide_True by done. reflexivity.
      * rewrite list_lookup_alter_ne by done.
        rewrite decide_False by (intros [_ ?]; done). reflexivity.
    + destruct (decide _); reflexivity.
  - rewrite list_lookup_alter_ne by done.
    rewrite decide_False by (intros [? _]; done). reflexivity.
Qed.

Lemma length_alter2 {A} (f : A -> A) (img : list (list A)) y x :
  length (alter2 f y x img) = length img.
Proof. apply length_alter. Qed.

Lemma width_alter2 {A} (f : A -> A) (img : list (list A)) y x :
  width (alter2 f y x img) = width img.
Proof.
  unfold alter2. destruct img as [|r img]; [reflexivity|].
  destruct y; simpl; [apply length_alter|reflexivity].
Qed.

Lemma rect_alter2 {A} (f : A -> A) (img : list (list A)) y x :
  rect img -> rect (alter2 f y x img).
Proof.
  unfold rect. rewrite width_alter2, !Forall_lookup. intros Hr i row Hi.
  unfold alter2 in Hi. destruct (decide (y = i)) as [<-|Hne].
  - rewrite list_lookup_alter_eq in Hi.
    destruct (img !! y) as [row0|] eqn:Hy; [|discriminate].
    injection Hi as <-. rewrite length_alter. eapply Hr; eauto.
  - rewrite list_lookup_alter_ne in Hi by done. eapply Hr; eauto.
Qed.

Lemma insert_row_alter2 {A} (img : list (list A)) y x row (v : A) :
  img !! y = Some row ->
  <[y := <[x := v]> row]> img = alter2 (fun _ => v) y x img.
Proof.
  intros Hy. apply list_eq. intros i. unfold alter2.
  destruct (decide (y = i)) as [<-|Hne].
  - rewrite list_lookup_alter_eq, Hy. simpl.
    rewrite list_lookup_insert_eq by (eapply lookup_lt_Some; eauto).
    f_equal. apply list_eq. intros j. destruct (decide (x = j)) as [<-|Hj].
    + rewrite list_lookup_alter_eq.
      destruct (row !! x) eqn:Hx; simpl.
      * rewrite list_lookup_insert_eq by (eapply lookup_lt_Some; eauto). done.
      * rewrite list_insert_ge by (by apply lookup_ge_None). done.
    + rewrite list_lookup_alter_ne, list_lookup_insert_ne by done. done.
  - rewrite list_lookup_alter_ne, list_lookup_insert_ne by done. done.
Qed.

(** ** The accumulator *)

Section AccumulatorRuns.
Context {P : Type} `{Pixel P}.
Implicit Types (s : frame P) (img : list (list P)).

Lemma run_getpx s y x p :
  lookup2 (px s) y x = Some p -> getpx y x s = (Ok p, s).
Proof.
  intros Hp. apply lookup2_Some in Hp as (row & Hy & Hx).
  unfold getpx. rewrite Hy, Hx. reflexivity.
Qed.

Lemma run_getpx_out s y x :
  lookup2 (px s) y x = None -> getpx y x s = (Raise IndexError, s).
Proof.
  unfold lookup2, getpx. destruct (px s !! y) as [row|]; simpl; [|done].
  intros ->. reflexivity.
Qed.

Lemma run_setpx s y x v :
  is_Some (lookup2 (px s) y x) ->
  setpx y x v s = (Ok tt, Frame (alter2 (fun _ => v) y x (px s)) (rng s)).
Proof.
  intros [p Hp]. apply lookup2_Some in Hp as (row & Hy & Hx).
  unfold setpx. rewrite Hy, Hx.
  rewrite (insert_row_alter2 _ _ _ row) by assumption. reflexivity.
Qed.

Lemma alter2_at (f g : P -> P) img y x p :
  lookup2 img y x = Some p -> f p = g p -> alter2 f y x img = alter2 g y x img.
Proof.
  intros Hp Hfg. apply lookup2_Some in Hp as (row & Hy & Hx).
  unfold alter2. apply list_alter_ext; [|reflexivity].
  intros row' Hrow'. rewrite Hy in Hrow'. injection Hrow' as <-.
  apply list_alter_ext; [|reflexivity].
  intros p' Hp'. rewrite Hx in Hp'. injection Hp' as <-. exact Hfg.
Qed.

Lemma run_addpx s y x v :
  is_Some (lookup2 (px s) y x) ->
  addpx y x v s = (Ok tt, Frame (alter2 (fun p => padd p v) y x (px s)) (rng s)).
Proof.
  intros [p Hp]. unfold addpx.
  rewrite (run_bind_ok _ _ _ _ _ (run_getpx _ _ _ _ Hp)).
  rewrite run_setpx by eauto. do 2 f_equal.
  eapply alter2_at; eauto.
Qed.

Lemma run_shape s : shape s = (Ok (length (px s), width (px s)), s).
Proof. reflexivity. Qed.

Lemma in_bounds_spec h w ty tx :
  in_bounds h w ty tx = true <->
  0 <= ty < Z.of_nat h /\ 0 <= tx < Z.of_nat w.
Proof.
  unfold in_bounds. rewrite !andb_true_iff, !Z.leb_le, !Z.ltb_lt. lia.
Qed.

Lemma deposit_length h w y x e img entry :
  length (deposit h w y x e img entry) = length img.
Proof.
  destruct entry as [[dy dx] share]. unfold deposit.
  destruct (in_bounds _ _ _ _); [apply length_alter2|reflexivity].
Qed.

Lemma deposit_width h w y x e img entry :
  width (deposit h w y x e img entry) = width img.
Proof.
  destruct entry as [[dy dx] share]. unfold deposit.
  destruct (in_bounds _ _ _ _); [apply width_alter2|reflexivity].
Qed.

Lemma deposit_rect h w y x e img entry :
  rect img -> rect (deposit h w y x e img entry).
Proof.
  destruct entry as [[dy dx] share]. unfold deposit.
  destruct (in_bounds _ _ _ _); [apply rect_alter2|done].
Qed.

Lemma grid_alter2 h w (f : P -> P) img y x :
  grid h w img -> grid h w (alter2 f y x img).
Proof.
  intros (Hr & Hh & Hw). split; [by apply rect_alter2|].
  by rewrite length_alter2, width_alter2.
Qed.

Lemma grid_deposit h w h' w' y x e img entry :
  grid h w img -> grid h w (deposit h' w' y x e img entry).
Proof.
  intros (Hr & Hh & Hw). split; [by apply deposit_rect|].
  by rewrite deposit_length, deposit_width.
Qed.

Lemma grid_deposits h w h' w' y x e img entries :
  grid h w img -> grid h w (foldl (deposit h' w' y x e) img entries).
Proof.
  revert img. induction entries as [|entry entries IH]; intros img Hg; simpl.
  - exact Hg.
  - apply IH, grid_deposit, Hg.
Qed.

(** A guarded [img[ty, tx] += v] is the deposit of a kernel entry when
    the guard is the test that the offset stays in the raster. *)
Lemma run_guarded_add (g : bool) (ty tx : nat) v dy dx (share : P -> P) e
    img r h w y x :
  grid h w img ->
  g = in_bounds h w (Z.of_nat y + dy) (Z.of_nat x + dx) ->
  (g = true -> Z.of_nat ty = Z.of_nat y + dy /\ Z.of_nat tx = Z.of_nat x + dx) ->
  share e = v ->
  when g (addpx ty tx v) (Frame img r) =
  (Ok tt, Frame (deposit h w y x e img (dy, dx, share)) r).
Proof.
  intros (Hr & <- & <-) Hg Ht <-. unfold deposit. rewrite <- Hg.
  destruct g; simpl; [|reflexivity].
  destruct Ht as [Hty Htx]; [done|]. symmetry in Hg.
  apply in_bounds_spec in Hg. rewrite <- Hty, <- Htx, !Nat2Z.id.
  rewrite run_addpx; [reflexivity|].
  apply lookup2_is_Some; [done|]. simpl. lia.
Qed.

Lemma chain_cons (g : bool) (ty tx : nat) v (k : unit -> M (frame P) unit)
    dy dx (share : P -> P) e rest img r h w y x :
  grid h w img ->
  g = in_bounds h w (Z.of_nat y + dy) (Z.of_nat x + dx) ->
  (g = true -> Z.of_nat ty = Z.of_nat y + dy /\ Z.of_nat tx = Z.of_nat x + dx) ->
  share e = v ->
  k tt (Frame (deposit h w y x e img (dy, dx, share)) r) =
    (Ok tt, Frame (foldl (deposit h w y x e)
                     (deposit h w y x e img (dy, dx, share)) rest) r) ->
  (when g (addpx ty tx v) ≫= k) (Frame img r) =
  (Ok tt, Frame (foldl (deposit h w y x e) img ((dy, dx, share) :: rest)) r).
Proof.
  intros Hg Hb Ht Hv Hk.
  rewrite (run_bind_ok _ _ _ _ _ (run_guarded_add _ _ _ _ _ _ _ _ _ _ _ _ _ _ Hg Hb Ht Hv)).
  exact Hk.
Qed.

Lemma chain_last (g : bool) (ty tx : nat) v dy dx (share : P -> P) e
    img r h w y x :
  grid h w img ->
  g = in_bounds h w (Z.of_nat y + dy) (Z.of_nat x + dx) ->
  (g = true -> Z.of_nat ty = Z.of_nat y + dy /\ Z.of_nat tx = Z.of_nat x + dx) ->
  share e = v ->
  when g (addpx ty tx v) (Frame img r) =
  (Ok tt, Frame (foldl (deposit h w y x e) img [(dy, dx, share)]) r).
Proof. apply run_guarded_add. Qed.
End AccumulatorRuns.

(** ** The pixel steps of the source are the steps of the engine *)

Lemma when_seq {S} (c : bool) (a b : M S unit) :
  when c (a ≫= fun _ => b) = (when c a ≫= fun _ => when c b).
Proof. destruct c; reflexivity. Qed.

Lemma when_when {S} (c d : bool) (a : M S unit) :
  when c (when d a) = when (c && d) a.
Proof. destruct c; reflexivity. Qed.

Lemma run_bind_assoc {S A B C} (m : M S A) (f : A -> M S B) (k : B -> M S C) s :
  ((m ≫= f) ≫= k) s = (m ≫= fun a => f a ≫= k) s.
Proof. rewrite !run_bind. destruct (m s) as [[a|e] s']; reflexivity. Qed.

Ltac guard_eq :=
  apply Bool.eq_iff_eq_true;
  rewrite in_bounds_spec, ?andb_true_iff, ?Nat.ltb_lt; lia.

Ltac grid_tac :=
  repeat first [ assumption | apply grid_deposit | apply grid_alter2 ].

Ltac target_eq :=
  let Hg := fresh "Hg" in
  intros Hg; rewrite ?andb_true_iff, ?Nat.ltb_lt in Hg; lia.

Ltac chain_step :=
  rewrite ?run_bind_assoc;
  first
    [ eapply chain_cons; [grid_tac | guard_eq | target_eq | reflexivity | cbv beta]
    | eapply chain_last; [grid_tac | guard_eq | target_eq | reflexivity] ].

Section DiffusionRuns.
Context {P : Type} `{Pixel P}.
Variable quantize : P -> M (frame P) P.
Variable quantized : P -> P.
Hypothesis quantize_pure : forall p s, quantize p s = (Ok (quantized p), s).
Variable strength : f32.

Lemma run_floyd_steinberg_pixel h w img r y x :
  grid h w img -> (y < h)%nat -> (x < w)%nat ->
  floyd_steinberg_pixel quantize strength h w y x (Frame img r) =
  (Ok tt, Frame (diffuse_pixel quantized (scaled_error strength)
                   floyd_steinberg_kernel h w img (y, x)) r).
Proof.
  intros Hg Hy Hx.
  destruct (proj2 (lookup2_is_Some img y x (proj1 Hg))) as [old Hold].
  { destruct Hg as (_ & -> & ->). done. }
  unfold floyd_steinberg_pixel, diffuse_pixel. rewrite Hold.
  rewrite (run_bind_ok _ _ _ _ _ (run_getpx (Frame img r) _ _ _ Hold)).
  rewrite (run_bind_ok _ _ _ _ _ (quantize_pure _ _)).
  rewrite (run_bind_ok _ _ _ _ _ (run_setpx (Frame img r) _ _ _ (mk_is_Some _ _ Hold))).
  cbv zeta. rewrite !when_seq, !when_when. cbn [px rng].
  unfold floyd_steinberg_kernel.
  do 4 chain_step.
Qed.

Lemma run_atkinson_pixel h w img r y x :
  grid h w img -> (y < h)%nat -> (x < w)%nat ->
  atkinson_pixel quantize strength h w y x (Frame img r) =
  (Ok tt, Frame (diffuse_pixel quantized (eighth_error strength)
                   atkinson_kernel h w img (y, x)) r).
Proof.
  intros Hg Hy Hx.
  destruct (proj2 (lookup2_is_Some img y x (proj1 Hg))) as [old Hold].
  { destruct Hg as (_ & -> & ->). done. }
  unfold atkinson_pixel, diffuse_pixel. rewrite Hold.
  rewrite (run_bind_ok _ _ _ _ _ (run_getpx (Frame img r) _ _ _ Hold)).
  rewrite (run_bind_ok _ _ _ _ _ (quantize_pure _ _)).
  rewrite (run_bind_ok _ _ _ _ _ (run_setpx (Frame img r) _ _ _ (mk_is_Some _ _ Hold))).
  cbv zeta. rewrite !when_seq, !when_when. cbn [px rng].
  unfold atkinson_kernel, atkinson_offsets. cbn [map].
  do 6 chain_step.
Qed.

Lemma run_jarvis_judice_ninke_pixel h w img r y x :
  grid h w img -> (y < h)%nat -> (x < w)%nat ->
  jarvis_judice_ninke_pixel quantize strength h w y x (Frame img r) =
  (Ok tt, Frame (diffuse_pixel quantized (scaled_error strength)
                   jarvis_judice_ninke_kernel h w img (y, x)) r).
Proof.
  intros Hg Hy Hx.
  destruct (proj2 (lookup2_is_Some img y x (proj1 Hg))) as [old Hold].
  { destruct Hg as (_ & -> & ->). done. }
  unfold jarvis_judice_ninke_pixel, diffuse_pixel. rewrite Hold.
  rewrite (run_bind_ok _ _ _ _ _ (run_getpx (Frame img r) _ _ _ Hold)).
  rewrite (run_bind_ok _ _ _ _ _ (quantize_pure _ _)).
  rewrite (run_bind_ok _ _ _ _ _ (run_setpx (Frame img r) _ _ _ (mk_is_Some _ _ Hold))).
  cbv zeta. rewrite !when_seq, !when_when. cbn [px rng].
  unfold jarvis_judice_ninke_kernel.
  do 12 chain_step.
Qed.

Lemma grid_diffuse_pixel (error_of : P -> P -> P) kernel h w h' w' img yx :
  grid h w img ->
  grid h w (diffuse_pixel quantized error_of kernel h' w' img yx).
Proof.
  intros Hg. destruct yx as [y x]. unfold diffuse_pixel.
  destruct (lookup2 img y x); [|exact Hg].
  apply grid_deposits, grid_alter2, Hg.
Qed.
End DiffusionRuns.

(** ** Scans *)

Section Scan.
Context {P : Type}.
Variable body : nat -> nat -> M (frame P) unit.
Variable step : frame P -> nat * nat -> frame P.
Variables h w : nat.
Hypothesis body_step : forall s y x,
  grid h w (px s) -> (y < h)%nat -> (x < w)%nat ->
  body y x s = (Ok tt, step s (y, x)).
Hypothesis step_grid : forall s yx, grid h w (px s) -> grid h w (px (step s yx)).

Lemma grid_steps s l : grid h w (px s) -> grid h w (px (foldl step s l)).
Proof.
  revert s. induction l as [|yx l IH]; intros s Hg; simpl; [done|].
  apply IH, step_grid, Hg.
Qed.

Lemma run_row y xs s :
  grid h w (px s) -> (y < h)%nat -> Forall (fun x => (x < w)%nat) xs ->
  for_each xs (body y) s = (Ok tt, foldl step s (map (pair y) xs)).
Proof.
  intros Hg Hy. revert s Hg.
  induction xs as [|x xs IH]; intros s Hg Hxs; simpl; [done|].
  apply Forall_cons in Hxs as [Hx Hxs].
  rewrite (run_bind_ok _ _ _ _ _ (body_step _ _ _ Hg Hy Hx)).
  apply IH; [apply step_grid, Hg|done].
Qed.

Lemma run_rows ys s :
  grid h w (px s) -> Forall (fun y => (y < h)%nat) ys ->
  for_each ys (fun y => for_range w (body y)) s =
  (Ok tt, foldl step s (flat_map (fun y => map (pair y) (seq 0 w)) ys)).
Proof.
  revert s. induction ys as [|y ys IH]; intros s Hg Hys; simpl; [done|].
  apply Forall_cons in Hys as [Hy Hys].
  assert (Hxs : Forall (fun x => (x < w)%nat) (seq 0 w)).
  { apply Forall_forall. intros x Hx%elem_of_seq. lia. }
  unfold for_range at 1.
  rewrite (run_bind_ok _ _ _ _ _ (run_row _ _ _ Hg Hy Hxs)).
  rewrite foldl_app. apply IH; [apply grid_steps, Hg|done].
Qed.

Lemma run_scan s :
  grid h w (px s) ->
  for_range h (fun y => for_range w (body y)) s =
  (Ok tt, foldl step s (positions h w)).
Proof.
  intros Hg. apply run_rows; [done|].
  apply Forall_forall. intros y Hy%elem_of_seq. lia.
Qed.
End Scan.

Lemma foldl_frame {P A} (g : list (list P) -> A -> list (list P)) img r l :
  foldl (fun s a => Frame (g (px s) a) (rng s)) (Frame img r) l =
  Frame (foldl g img l) r.
Proof. revert img. induction l as [|a l IH]; intros img; simpl; [done|apply IH]. Qed.

(** ** The loops of the source are the scan of the engine *)

Section LoopRuns.
Context {P : Type} `{Pixel P}.
Variable quantize : P -> M (frame P) P.
Variable quantized : P -> P.
Hypothesis quantize_pure : forall p s, quantize p s = (Ok (quantized p), s).
Variable strength : f32.

Lemma run_diffusion_scan (body : nat -> nat -> nat -> nat -> M (frame P) unit)
    (error_of : P -> P -> P) kernel img r :
  (forall h w img r y x, grid h w img -> (y < h)%nat -> (x < w)%nat ->
     body h w y x (Frame img r) =
     (Ok tt, Frame (diffuse_pixel quantized error_of kernel h w img (y, x)) r)) ->
  rect img ->
  (shape ≫= fun hw => for_range hw.1 (fun y => for_range hw.2 (fun x =>
     body hw.1 hw.2 y x))) (Frame img r) =
  (Ok tt, Frame (diffuse quantized error_of kernel img) r).
Proof.
  intros Hbody Hr.
  rewrite (run_bind_ok _ _ _ _ _ (run_shape _)). cbn [px fst snd].
  rewrite (run_scan _ (fun s yx => Frame (diffuse_pixel quantized error_of
             kernel (length img) (width img) (px s) yx) (rng s))
             (length img) (width img)).
  - rewrite foldl_frame. reflexivity.
  - intros [img' r'] y x Hg Hy Hx. by apply Hbody.
  - intros [img' r'] yx Hg. by apply grid_diffuse_pixel.
  - done.
Qed.

Lemma run_floyd_steinberg_loop img r :
  rect img ->
  floyd_steinberg_loop quantize strength (Frame img r) =
  (Ok tt, Frame (diffuse quantized (scaled_error strength)
                   floyd_steinberg_kernel img) r).
Proof.
  intros Hr.
  apply (run_diffusion_scan (floyd_steinberg_pixel quantize strength)); [|done].
  intros. by apply run_floyd_steinberg_pixel.
Qed.

Lemma run_atkinson_loop img r :
  rect img ->
  atkinson_loop quantize strength (Frame img r) =
  (Ok tt, Frame (diffuse quantized (eighth_error strength) atkinson_kernel img) r).
Proof.
  intros Hr.
  apply (run_diffusion_scan (atkinson_pixel quantize strength)); [|done].
  intros. by apply run_atkinson_pixel.
Qed.

Lemma run_jarvis_judice_ninke_loop img r :
  rect img ->
  jarvis_judice_ninke_loop quantize strength (Frame img r) =
  (Ok tt, Frame (diffuse quantized (scaled_error strength)
                   jarvis_judice_ninke_kernel img) r).
Proof.
  intros Hr.
  apply (run_diffusion_scan (jarvis_judice_ninke_pixel quantize strength)); [|done].
  intros. by apply run_jarvis_judice_ninke_pixel.
Qed.
End LoopRuns.

(** ** The scan order *)

Lemma elem_of_row_positions y xs (yx : nat * nat) :
  yx ∈ map (pair y) xs <-> yx.1 = y /\ yx.2 ∈ xs.
Proof.
  change (map (pair y) xs) with (pair y <$> xs). rewrite list_elem_of_fmap.
  destruct yx as [y' x']. simpl. split.
  - intros (x & [= -> ->] & Hx). done.
  - intros [-> Hx]. eauto.
Qed.

Lemma elem_of_rows_positions ys xs (yx : nat * nat) :
  yx ∈ flat_map (fun y => map (pair y) xs) ys <-> yx.1 ∈ ys /\ yx.2 ∈ xs.
Proof.
  induction ys as [|y ys IH]; simpl.
  - rewrite !elem_of_nil. tauto.
  - rewrite elem_of_app, elem_of_row_positions, IH, elem_of_cons. intuition congruence.
Qed.

Lemma elem_of_positions h w y x :
  (y, x) ∈ positions h w <-> (y < h)%nat /\ (x < w)%nat.
Proof.
  unfold positions. rewrite elem_of_rows_positions, !elem_of_seq. simpl. lia.
Qed.

Lemma sorted_row_positions y xs :
  StronglySorted lt xs -> StronglySorted scan_lt (map (pair y) xs).
Proof.
  induction 1 as [|x xs Hs IH Hall]; simpl; constructor; [done|].
  rewrite List.Forall_forall in *. intros yx Hin.
  apply list_elem_of_In, elem_of_row_positions in Hin as [Hy Hx].
  right. simpl. split; [done|]. apply Hall, list_elem_of_In, Hx.
Qed.

Lemma sorted_rows_positions ys xs :
  StronglySorted lt ys -> StronglySorted lt xs ->
  StronglySorted scan_lt (flat_map (fun y => map (pair y) xs) ys).
Proof.
  intros Hys Hxs. induction Hys as [|y ys Hs IH Hall]; simpl; [constructor|].
  apply StronglySorted_app_2; [|by apply sorted_row_positions|done].
  intros a b [Ha _]%elem_of_row_positions [Hb _]%elem_of_rows_positions.
  left. rewrite Ha. rewrite List.Forall_forall in Hall.
  apply Hall, list_elem_of_In, Hb.
Qed.

Lemma sorted_seq j n : StronglySorted lt (seq j n).
Proof.
  revert j. induction n as [|n IH]; intros j; simpl; constructor; [apply IH|].
  apply Forall_forall. intros k Hk%elem_of_seq. lia.
Qed.

Lemma sorted_positions h w : StronglySorted scan_lt (positions h w).
Proof. apply sorted_rows_positions; apply sorted_seq. Qed.

(** ** What a step of the engine changes *)

Section EngineSteps.
Context {P : Type} `{Pixel P}.
Variable quantized : P -> P.
Variable error_of : P -> P -> P.
Variable kernel : list (Z * Z * (P -> P)).
Implicit Types (img : list (list P)).

Lemma lookup2_deposit h w y x e img dy dx share y' x' :
  lookup2 (deposit h w y x e img (dy, dx, share)) y' x' =
  if decide (in_bounds h w (Z.of_nat y + dy) (Z.of_nat x + dx) = true /\
             Z.of_nat y' = Z.of_nat y + dy /\ Z.of_nat x' = Z.of_nat x + dx)
  then (fun p => padd p (share e)) <$> lookup2 img y' x'
  else lookup2 img y' x'.
Proof.
  unfold deposit. destruct (in_bounds _ _ _ _) eqn:Hb.
  - rewrite lookup2_alter2. apply in_bounds_spec in Hb.
    destruct (decide (Z.to_nat _ = y' /\ _)) as [[<- <-]|Hne].
    + rewrite decide_True; [done|]. rewrite !Z2Nat.id by lia. done.
    + rewrite decide_False; [done|]. intros (_ & Hy & Hx). apply Hne. lia.
  - rewrite decide_False; [done|]. intros ([=] & _).
Qed.

(** The deposits of a forward kernel leave the pixel itself and the
    pixels before it as they are. *)
Lemma lookup2_deposits_not_after h w y x e img y' x' :
  forward kernel ->
  (y' < y \/ (y' = y /\ x' <= x))%nat ->
  lookup2 (foldl (deposit h w y x e) img kernel) y' x' = lookup2 img y' x'.
Proof.
  intros Hf Hle. revert img.
  induction Hf as [|[[dy dx] share] k Hd Hf IH]; intros img; cbn [foldl]; [done|].
  rewrite IH, lookup2_deposit. rewrite decide_False; [done|].
  simpl in Hd. intros (_ & Hy & Hx). lia.
Qed.

Lemma lookup2_diffuse_pixel_at h w img y x old :
  forward kernel ->
  lookup2 img y x = Some old ->
  lookup2 (diffuse_pixel quantized error_of kernel h w img (y, x)) y x =
  Some (quantized old).
Proof.
  intros Hf Hold. unfold diffuse_pixel. rewrite Hold.
  rewrite lookup2_deposits_not_after by (done || lia).
  rewrite lookup2_alter2, decide_True, Hold; done.
Qed.

Lemma lookup2_diffuse_pixel_before h w img y x y' x' :
  forward kernel ->
  scan_lt (y', x') (y, x) ->
  lookup2 (diffuse_pixel quantized error_of kernel h w img (y, x)) y' x' =
  lookup2 img y' x'.
Proof.
  intros Hf Hlt. unfold diffuse_pixel. destruct (lookup2 img y x); [|done].
  unfold scan_lt in Hlt. simpl in Hlt.
  rewrite lookup2_deposits_not_after by (done || lia).
  rewrite lookup2_alter2, decide_False; [done|]. lia.
Qed.

(** After the scan of a sorted list of pixels, each of them holds a
    quantized value, and the pixels before all of them are untouched. *)
Lemma scan_quantizes h w h' w' l img :
  forward kernel -> StronglySorted scan_lt l -> grid h w img ->
  (forall yx, yx ∈ l -> (yx.1 < h)%nat /\ (yx.2 < w)%nat) ->
  let out := foldl (diffuse_pixel quantized error_of kernel h' w') img l in
  (forall yx, yx ∈ l -> exists v, lookup2 out yx.1 yx.2 = Some (quantized v)) /\
  (forall yx, Forall (scan_lt yx) l ->
     lookup2 out yx.1 yx.2 = lookup2 img yx.1 yx.2).
Proof.
  intros Hf Hs. revert img.
  induction Hs as [|[y x] l Hs IH Hall]; intros img Hg Hin; cbn [foldl].
  { split; [|done]. intros yx []%elem_of_nil. }
  set (img1 := diffuse_pixel quantized error_of kernel h' w' img (y, x)).
  destruct (IH img1) as (Hq & Hb).
  { by apply grid_diffuse_pixel. }
  { intros yx Hyx. apply Hin. by right. }
  split.
  - intros yx [->|Hyx]%elem_of_cons; [|by apply Hq].
    rewrite Hb by done. simpl.
    destruct (proj2 (lookup2_is_Some img y x (proj1 Hg))) as [old Hold].
    { destruct Hg as (_ & -> & ->). apply (Hin (y, x)). by left. }
    exists old. by apply lookup2_diffuse_pixel_at.
  - intros [y' x'] [Hlt Hrest]%Forall_cons. rewrite Hb by done.
    by apply lookup2_diffuse_pixel_before.
Qed.

Lemma grid_diffuse_steps h w h' w' img l :
  grid h w img ->
  grid h w (foldl (diffuse_pixel quantized error_of kernel h' w') img l).
Proof.
  revert img. induction l as [|yx l IH]; intros img Hg; simpl; [done|].
  apply IH. by apply grid_diffuse_pixel.
Qed.

Lemma grid_diffuse img :
  rect img ->
  grid (length img) (width img) (diffuse quantized error_of kernel img).
Proof. intros Hr. unfold diffuse. by apply grid_diffuse_steps. Qed.

(** Every pixel of the result of [diffuse] is a quantized value. *)
Lemma diffuse_quantizes img y x p :
  forward kernel -> rect img ->
  lookup2 (diffuse quantized error_of kernel img) y x = Some p ->
  exists v, p = quantized v.
Proof.
  intros Hf Hr Hp.
  assert (Hg : grid (length img) (width img) img) by done.
  destruct (scan_quantizes (length img) (width img) (length img) (width img)
              (positions (length img) (width img)) img Hf
              (sorted_positions _ _) Hg) as [Hq _].
  { intros [y' x'] Hin%elem_of_positions. done. }
  destruct (Hq (y, x)) as [v Hv].
  - apply elem_of_positions.
    destruct (grid_diffuse img Hr) as (Hr' & Hl' & Hw').
    rewrite <- Hl', <- Hw'. apply lookup2_is_Some; [done|]. eauto.
  - simpl in Hv. unfold diffuse in Hp. rewrite Hp in Hv.
    injection Hv as ->. eauto.
Qed.
End EngineSteps.

(** ** Checks by enumeration *)

Lemma all_below_spec n f :
  all_below n f = true -> forall v, 0 <= v < Z.of_nat n -> f v = true.
Proof.
  unfold all_below. rewrite forallb_forall. intros Hall v Hv.
  apply Hall, in_map_iff. exists (Z.to_nat v). split; [lia|].
  apply in_seq. lia.
Qed.

Lemma clip_uint8_of_Z v : 0 <= v <= 255 -> clip_uint8 (B32.of_Z v) = v.
Proof.
  intros Hv. apply Z.eqb_eq.
  apply (all_below_spec 256 (fun v => clip_uint8 (B32.of_Z v) =? v)); [|lia].
  vm_compute. reflexivity.
Qed.

(** ** Objects *)

Lemma run_alloc a σ :
  alloc a σ =
  (Ok (fresh (dom (heap σ))),
   World (<[fresh (dom (heap σ)) := a]> (heap σ)) (generator σ)).
Proof. reflexivity. Qed.

Lemma fresh_loc_None (σ : world) : heap σ !! fresh (dom (heap σ)) = None.
Proof. apply not_elem_of_dom, is_fresh. Qed.

Lemma fresh_loc_ne (σ : world) l a :
  heap σ !! l = Some a -> fresh (dom (heap σ)) <> l.
Proof. intros Hl Heq. rewrite <- Heq, fresh_loc_None in Hl. discriminate. Qed.

(** The common frame of the five functions on a grayscale raster: the
    copy, the loops on the copy, the conversion of the copy. *)
Lemma run_gray_call image rows σ (loops : M (frame f32) unit) out r :
  heap σ !! image = Some (U8 (Gray rows)) ->
  loops (Frame (map (map B32.of_Z) rows) (generator σ)) = (Ok tt, Frame out r) ->
  returns (astype_float32 image ≫= fun img =>
             in_place_gray img loops ≫= fun _ => clip_astype_uint8 img) σ
          (U8 (Gray (map (map clip_uint8) out))).
Proof.
  intros Himg Hloops. unfold returns.
  set (img := fresh (dom (heap σ))).
  set (σ1 := World (<[img := F32 (Gray (map (map B32.of_Z) rows))]> (heap σ)) (generator σ)).
  assert (H1 : astype_float32 image σ = (Ok img, σ1)).
  { unfold astype_float32. rewrite Himg. reflexivity. }
  set (σ2 := World (<[img := F32 (Gray out)]> (heap σ1)) r).
  assert (H2 : in_place_gray img loops σ1 = (Ok tt, σ2)).
  { unfold in_place_gray. simpl. rewrite lookup_insert_eq. simpl.
    rewrite Hloops. reflexivity. }
  rewrite (run_bind_ok _ _ _ _ _ H1), (run_bind_ok _ _ _ _ _ H2).
  unfold clip_astype_uint8. simpl. rewrite lookup_insert_eq.
  rewrite run_alloc. eexists _, _. split; [reflexivity|].
  simpl. rewrite lookup_insert_eq. reflexivity.
Qed.

Lemma run_color_call image rows σ (loops : M (frame (rgb f32)) unit) out r :
  heap σ !! image = Some (U8 (Color rows)) ->
  loops (Frame (map (map (map3 B32.of_Z)) rows) (generator σ)) = (Ok tt, Frame out r) ->
  returns (astype_float32 image ≫= fun img =>
             in_place_color img loops ≫= fun _ => clip_astype_uint8 img) σ
          (U8 (Color (map (map (map3 clip_uint8)) out))).
Proof.
  intros Himg Hloops. unfold returns.
  set (img := fresh (dom (heap σ))).
  set (σ1 := World (<[img := F32 (Color (map (map (map3 B32.of_Z)) rows))]> (heap σ)) (generator σ)).
  assert (H1 : astype_float32 image σ = (Ok img, σ1)).
  { unfold astype_float32. rewrite Himg. reflexivity. }
  set (σ2 := World (<[img := F32 (Color out)]> (heap σ1)) r).
  assert (H2 : in_place_color img loops σ1 = (Ok tt, σ2)).
  { unfold in_place_color. simpl. rewrite lookup_insert_eq. simpl.
    rewrite Hloops. reflexivity. }
  rewrite (run_bind_ok _ _ _ _ _ H1), (run_bind_ok _ _ _ _ _ H2).
  unfold clip_astype_uint8. simpl. rewrite lookup_insert_eq.
  rewrite run_alloc. eexists _, _. split; [reflexivity|].
  simpl. rewrite lookup_insert_eq. reflexivity.
Qed.

(** ** Rectangles under a map *)

Lemma width_map {A B} (f : list A -> list B) (img : list (list A)) :
  (forall r, length (f r) = length r) -> width (map f img) = width img.
Proof. intros Hf. destruct img; simpl; [done|apply Hf]. Qed.

Lemma rect_map {A B} (f : A -> B) (img : list (list A)) :
  rect img -> rect (map (map f) img).
Proof.
  unfold rect. rewrite width_map by (intros; apply length_map).
  rewrite !Forall_lookup. intros Hr i row Hi.
  change (map (map f) img) with (map f <$> img) in Hi.
  rewrite list_lookup_fmap in Hi. destruct (img !! i) as [row0|] eqn:Hi0; [|done].
  injection Hi as <-. rewrite length_map. eauto.
Qed.

Lemma lookup2_map {A B} (f : A -> B) (img : list (list A)) y x :
  lookup2 (map (map f) img) y x = f <$> lookup2 img y x.
Proof.
  unfold lookup2. change (map (map f) img) with (map f <$> img).
  rewrite list_lookup_fmap. destruct (img !! y) as [row|]; simpl; [|done].
  apply (list_lookup_fmap f).
Qed.

Lemma elem_of_grid {A} (img : list (list A)) (row : list A) (p : A) :
  row ∈ img -> p ∈ row -> exists y x, lookup2 img y x = Some p.
Proof.
  intros [y Hy]%list_elem_of_lookup [x Hx]%list_elem_of_lookup.
  exists y, x. apply lookup2_Some. eauto.
Qed.

(** ** Quantization returns a value *)

Lemma quantize_gray_pure p s : quantize_gray p s = (Ok (gray_level p), s).
Proof. reflexivity. Qed.

Lemma argmin_scan_bound l mp min_ind i :
  (min_ind < i)%nat -> (argmin_scan mp min_ind i l < i + length l)%nat.
Proof.
  revert mp min_ind i. induction l as [|d l IH]; intros mp min_ind i Hlt; simpl.
  - lia.
  - destruct (negb (B64.ge d mp)).
    + destruct (is_nan d); [lia|]. specialize (IH d i (S i)). lia.
    + specialize (IH mp min_ind (S i)). lia.
Qed.

Lemma np_argmin_ok l :
  l <> [] -> exists i, np_argmin l = Ok i /\ (i < length l)%nat.
Proof.
  destruct l as [|d l]; [done|]. intros _. simpl. eexists. split; [done|].
  destruct (is_nan d); [lia|]. pose proof (argmin_scan_bound l d 0 1). lia.
Qed.

Lemma nearest_index_lt pal pixel :
  pal <> [] -> (nearest_index pal pixel < length pal)%nat.
Proof.
  intros Hne. unfold nearest_index.
  destruct (np_argmin_ok (distances pixel pal)) as (i & -> & Hi).
  - unfold distances. by destruct pal.
  - unfold distances in Hi. by rewrite length_map in Hi.
Qed.

Lemma nearest_color_pure {S} pal pixel (s : S) :
  pal <> [] ->
  nearest_color (Some pal) pixel s = (Ok (nearest_entry pal pixel), s).
Proof.
  intros Hne. unfold nearest_color, nearest_entry.
  pose proof (nearest_index_lt pal pixel Hne) as Hlt. unfold nearest_index in *.
  destruct (np_argmin_ok (distances pixel pal)) as (i & Hi & _).
  { unfold distances. by destruct pal. }
  rewrite Hi in *. rewrite run_bind. unfold lift.
  destruct (lookup_lt_is_Some_2 pal i Hlt) as [color Hc]. rewrite Hc. reflexivity.
Qed.

Lemma quantize_color_pure pal p s :
  pal <> [] ->
  quantize_color (Some pal) p s =
  (Ok (nearest_entry pal (map3 B64.of_f32 p)), s).
Proof. apply nearest_color_pure. Qed.

(** The entry [nearest_entry] returns is one of the palette. *)
Lemma nearest_entry_elem_of pal pixel :
  pal <> [] -> exists color, color ∈ pal /\ nearest_entry pal pixel = map3 B32.of_Z color.
Proof.
  intros Hne. unfold nearest_entry.
  destruct (lookup_lt_is_Some_2 pal _ (nearest_index_lt pal pixel Hne)) as [c Hc].
  rewrite Hc. exists c. split; [|done]. apply list_elem_of_lookup. eauto.
Qed.

(** ** Scans that set each pixel from its own value *)

Lemma grid_ext {A} (a b : list (list A)) :
  length a = length b ->
  (forall y, is_Some (a !! y) -> exists ra rb, a !! y = Some ra /\ b !! y = Some rb /\
                                  length ra = length rb) ->
  (forall y x, lookup2 a y x = lookup2 b y x) -> a = b.
Proof.
  intros Hlen Hrows Heq. apply list_eq. intros y.
  destruct (a !! y) as [ra|] eqn:Ha.
  - destruct (Hrows y) as (ra' & rb & Ha' & Hb & Hl); [eauto|].
    rewrite Ha in Ha'. injection Ha' as <-. rewrite Hb. f_equal.
    apply list_eq. intros x. specialize (Heq y x). unfold lookup2 in Heq.
    rewrite Ha, Hb in Heq. exact Heq.
  - symmetry. apply lookup_ge_None. apply lookup_ge_None in Ha. lia.
Qed.

Lemma lookup2_imap2 {A B} (f : nat -> nat -> A -> B) img y x :
  lookup2 (imap2 f img) y x = f y x <$> lookup2 img y x.
Proof.
  unfold lookup2, imap2. rewrite list_lookup_imap.
  destruct (img !! y) as [row|]; simpl; [|done]. apply list_lookup_imap.
Qed.

Lemma grid_eq_imap2 {A} (f : nat -> nat -> A -> A) h w (a b : list (list A)) :
  grid h w a -> grid h w b ->
  (forall y x, lookup2 b y x = f y x <$> lookup2 a y x) ->
  b = imap2 f a.
Proof.
  intros (Hra & Hla & Hwa) (Hrb & Hlb & Hwb) Heq. apply grid_ext.
  - unfold imap2. rewrite length_imap. lia.
  - intros y [rb Hb]. assert (Hy : (y < length a)%nat).
    { apply lookup_lt_Some in Hb. lia. }
    destruct (lookup_lt_is_Some_2 a y Hy) as [ra Ha].
    exists rb, (imap (fun x p => f y x p) ra). split; [done|]. split.
    + unfold imap2. rewrite list_lookup_imap, Ha. done.
    + rewrite length_imap, (rect_row b y rb), (rect_row a y ra) by done. lia.
  - intros y x. rewrite lookup2_imap2. apply Heq.
Qed.

Section PointwiseScan.
Context {P : Type}.
Variable step : frame P -> nat * nat -> frame P.
Variable Q : nat -> nat -> P -> P -> Prop.
Hypothesis step_px : forall s y x,
  exists c : P -> P,
    px (step s (y, x)) = alter2 c y x (px s) /\ forall p, Q y x p (c p).

Lemma pointwise_scan l s y x p :
  NoDup l -> lookup2 (px s) y x = Some p ->
  exists v, lookup2 (px (foldl step s l)) y x = Some v /\
            if decide ((y, x) ∈ l) then Q y x p v else v = p.
Proof.
  intros Hnd. revert s p.
  induction Hnd as [|[y0 x0] l Hnotin Hnd IH]; intros s p Hp; cbn [foldl].
  { exists p. split; [done|]. rewrite decide_False; [done|]. apply not_elem_of_nil. }
  destruct (step_px s y0 x0) as (c & Hc & HQ).
  destruct (decide ((y, x) = (y0, x0))) as [[= -> ->]|Hne].
  - destruct (IH (step s (y0, x0)) (c p)) as (v & Hv & Hfinal).
    { rewrite Hc, lookup2_alter2, decide_True, Hp; done. }
    rewrite decide_False in Hfinal by done. subst v.
    exists (c p). split; [done|]. rewrite decide_True by (by left). apply HQ.
  - destruct (IH (step s (y0, x0)) p) as (v & Hv & Hfinal).
    { rewrite Hc, lookup2_alter2, decide_False; [done|]. intros [-> ->]. done. }
    exists v. split; [done|]. destruct (decide ((y, x) ∈ l)) as [Hin|Hnin].
    + rewrite decide_True by (by right). done.
    + rewrite decide_False; [done|]. intros [?|?]%elem_of_cons; done.
Qed.
End PointwiseScan.

Lemma NoDup_positions h w : NoDup (positions h w).
Proof.
  assert (Hirr : forall l, StronglySorted scan_lt l -> NoDup l).
  { induction 1 as [|a l Hs IH Hall]; constructor; [|done].
    intros Hin. rewrite List.Forall_forall in Hall.
    apply list_elem_of_In, Hall in Hin. unfold scan_lt in Hin. lia. }
  apply Hirr, sorted_positions.
Qed.

(** ** The ordered and the random loops, pixel by pixel *)

Lemma run_lift_ok {S A} (a : A) (s : S) : lift (Ok a) s = (Ok a, s).
Proof. reflexivity. Qed.

Section PixelRuns.
Variables h w : nat.

Lemma run_ordered_pixel_gray matrix_size t img r y x :
  bayer_threshold matrix_size y x = Ok t ->
  grid h w img -> (y < h)%nat -> (x < w)%nat ->
  ordered_pixel_gray matrix_size y x (Frame img r) =
  (Ok tt, Frame (alter2 (ordered_level matrix_size y x) y x img) r).
Proof.
  intros Ht Hg Hy Hx.
  destruct (proj2 (lookup2_is_Some img y x (proj1 Hg))) as [old Hold].
  { destruct Hg as (_ & -> & ->). done. }
  unfold ordered_pixel_gray. rewrite Ht.
  rewrite (run_bind_ok _ _ _ _ _ (run_lift_ok _ _)).
  rewrite (run_bind_ok _ _ _ _ _ (run_getpx (Frame img r) _ _ _ Hold)).
  rewrite (run_setpx (Frame img r)) by (simpl; eauto). simpl. do 2 f_equal.
  eapply alter2_at; [done|]. unfold ordered_level, threshold_at.
  rewrite Ht. reflexivity.
Qed.

Lemma run_ordered_pixel_color matrix_size pal t img r y x :
  bayer_threshold matrix_size y x = Ok t ->
  pal <> [] ->
  grid h w img -> (y < h)%nat -> (x < w)%nat ->
  ordered_pixel_color matrix_size (Some pal) y x (Frame img r) =
  (Ok tt, Frame (alter2 (ordered_entry matrix_size pal y x) y x img) r).
Proof.
  intros Ht Hpal Hg Hy Hx.
  destruct (proj2 (lookup2_is_Some img y x (proj1 Hg))) as [old Hold].
  { destruct Hg as (_ & -> & ->). done. }
  unfold ordered_pixel_color. rewrite Ht.
  rewrite (run_bind_ok _ _ _ _ _ (run_lift_ok _ _)).
  rewrite (run_bind_ok _ _ _ _ _ (run_getpx (Frame img r) _ _ _ Hold)).
  assert (Hnew : forall s : frame (rgb f32),
    (if (length pal =? 2)%nat
     then if B64.gt (B64.of_f32 (mean3 old)) t
          then palette_entry pal 1 else palette_entry pal 0
     else nearest_color (Some pal) (map3 B64.of_f32 old)) s =
    (Ok (ordered_entry matrix_size pal y x old), s)).
  { intros s. unfold ordered_entry, threshold_at. rewrite Ht.
    destruct (length pal =? 2)%nat eqn:Hlen.
    - apply Nat.eqb_eq in Hlen.
      destruct pal as [|c0 [|c1 [|c2 pal']]]; try discriminate.
      unfold palette_entry, entry_at. simpl. by destruct (B64.gt _ _).
    - by apply nearest_color_pure. }
  rewrite (run_bind_ok _ _ _ _ _ (Hnew _)).
  rewrite (run_setpx (Frame img r)) by (simpl; eauto). simpl. do 2 f_equal.
  by eapply alter2_at.
Qed.

Lemma run_random_pixel_gray tv img r y x :
  grid h w img -> (y < h)%nat -> (x < w)%nat ->
  random_pixel_gray tv y x (Frame img r) =
  (Ok tt, Frame (alter2 (random_level tv (r 0%nat)) y x img) (drawn 1 r)).
Proof.
  intros Hg Hy Hx.
  destruct (proj2 (lookup2_is_Some img y x (proj1 Hg))) as [old Hold].
  { destruct Hg as (_ & -> & ->). done. }
  unfold random_pixel_gray, uniform.
  rewrite run_bind_assoc. unfold random at 1. rewrite run_bind. cbn [px rng].
  rewrite run_bind. cbn [mret M_ret ret].
  rewrite (run_bind_ok _ _ _ _ _ (run_getpx (Frame img _) _ _ _ Hold)).
  rewrite (run_setpx (Frame img _)) by (simpl; eauto). simpl. do 2 f_equal.
  by eapply alter2_at.
Qed.

Lemma run_uniform3 {P} a b (img : list (list P)) r :
  uniform3 a b (Frame img r) =
  (Ok (B64.add a (B64.mul (B64.sub b a) (r 0%nat)),
       B64.add a (B64.mul (B64.sub b a) (r 1%nat)),
       B64.add a (B64.mul (B64.sub b a) (r 2%nat))),
   Frame img (drawn 3 r)).
Proof. reflexivity. Qed.

Lemma run_random_pixel_color tv pal img r y x :
  pal <> [] ->
  grid h w img -> (y < h)%nat -> (x < w)%nat ->
  random_pixel_color tv (Some pal) y x (Frame img r) =
  (Ok tt, Frame (alter2 (random_entry tv pal (r 0%nat, r 1%nat, r 2%nat)) y x img)
                (drawn 3 r)).
Proof.
  intros Hpal Hg Hy Hx.
  destruct (proj2 (lookup2_is_Some img y x (proj1 Hg))) as [old Hold].
  { destruct Hg as (_ & -> & ->). done. }
  unfold random_pixel_color.
  rewrite (run_bind_ok _ _ _ _ _ (run_getpx (Frame img r) _ _ _ Hold)).
  rewrite (run_bind_ok _ _ _ _ _ (run_uniform3 _ _ _ _)).
  cbv zeta.
  rewrite (run_bind_ok _ _ _ _ _ (nearest_color_pure pal _ _ Hpal)).
  rewrite (run_setpx (Frame img _)) by (simpl; eauto). simpl. do 2 f_equal.
  by eapply alter2_at.
Qed.
End PixelRuns.

(** ** The Bayer threshold of a pixel *)

Lemma np_index_in_range {A} (l : list A) (i : Z) :
  0 <= i < Z.of_nat (length l) ->
  exists a, l !! Z.to_nat i = Some a /\ np_index l i = Ok a.
Proof.
  intros Hi. destruct (lookup_lt_is_Some_2 l (Z.to_nat i)) as [a Ha]; [lia|].
  exists a. split; [done|]. unfold np_index.
  destruct (Z.ltb_spec i 0); [lia|].
  destruct (Z.leb_spec 0 i); [|lia].
  destruct (Z.ltb_spec i (Z.of_nat (length l))); [|lia]. simpl. by rewrite Ha.
Qed.

Lemma bayer_matrix_cells m :
  bayer_matrix m = normalized (bayer_cells m) (bayer_denominator m).
Proof.
  unfold bayer_matrix, bayer_cells, bayer_denominator.
  destruct (m =? 2); [done|]. by destruct (m =? 4).
Qed.

Lemma grid_bayer_cells m :
  m = 2 \/ m = 4 \/ m = 8 ->
  grid (Z.to_nat m) (Z.to_nat m) (bayer_cells m).
Proof.
  intros [-> | [-> | ->]]; (split; [|done]); unfold rect; simpl;
    repeat constructor.
Qed.

Lemma bayer_threshold_valid m y x :
  m = 2 \/ m = 4 \/ m = 8 ->
  exists k,
    lookup2 (bayer_cells m) (Z.to_nat (Z.of_nat y mod m)) (Z.to_nat (Z.of_nat x mod m))
      = Some k /\
    bayer_threshold m y x =
    Ok (B64.mul (B64.div (B64.of_Z k) (B64.of_Z (bayer_denominator m))) (B64.of_Z 255)).
Proof.
  intros Hm. assert (Hpos : 0 < m) by lia.
  destruct (grid_bayer_cells m Hm) as (Hr & Hl & Hw).
  pose proof (Z.mod_pos_bound (Z.of_nat y) m Hpos) as Hi.
  pose proof (Z.mod_pos_bound (Z.of_nat x) m Hpos) as Hj.
  destruct (proj2 (lookup2_is_Some (bayer_cells m) (Z.to_nat (Z.of_nat y mod m))
              (Z.to_nat (Z.of_nat x mod m)) Hr)) as [k Hk]; [lia|].
  exists k. split; [done|].
  apply lookup2_Some in Hk as (row & Hrow & Hcell).
  unfold bayer_threshold, py_mod.
  destruct (Z.eqb_spec m 0) as [->|_]; [lia|].
  rewrite bayer_matrix_cells.
  destruct (np_index_in_range (normalized (bayer_cells m) (bayer_denominator m))
              (Z.of_nat y mod m)) as (frow & Hfrow & ->).
  { unfold normalized. rewrite length_map. lia. }
  unfold normalized in Hfrow.
  change (map ?f ?l) with (f <$> l) in Hfrow.
  rewrite list_lookup_fmap, Hrow in Hfrow. injection Hfrow as <-.
  destruct (np_index_in_range
              (map (fun k => B64.div (B64.of_Z k) (B64.of_Z (bayer_denominator m))) row)
              (Z.of_nat x mod m)) as (t & Ht & ->).
  { rewrite length_map, (rect_row _ _ _ Hr Hrow). lia. }
  change (map ?f ?l) with (f <$> l) in Ht.
  rewrite list_lookup_fmap, Hcell in Ht. injection Ht as <-. reflexivity.
Qed.

(** ** Loops that set each pixel from its own value *)

Section PointwiseLoop.
Context {P : Type}.
Variable body : nat -> nat -> M (frame P) unit.
Variable c : frame P -> nat -> nat -> P -> P.
Variable g : frame P -> nat -> f64.
Variable Q : nat -> nat -> P -> P -> Prop.
Variables h w : nat.
Hypothesis body_run : forall img r y x,
  grid h w img -> (y < h)%nat -> (x < w)%nat ->
  body y x (Frame img r) =
  (Ok tt, Frame (alter2 (c (Frame img r) y x) y x img) (g (Frame img r))).
Hypothesis c_Q : forall s y x p, Q y x p (c s y x p).

Lemma run_pointwise_loop img r :
  grid h w img ->
  exists out r',
    (shape ≫= fun hw => for_range hw.1 (fun y => for_range hw.2 (body y)))
      (Frame img r) = (Ok tt, Frame out r') /\
    grid h w out /\
    forall y x p, lookup2 img y x = Some p ->
      exists v, lookup2 out y x = Some v /\ Q y x p v.
Proof.
  intros Hg.
  set (step := fun (s : frame P) (yx : nat * nat) =>
         Frame (alter2 (c s yx.1 yx.2) yx.1 yx.2 (px s)) (g s)).
  assert (Hstep_grid : forall s yx, grid h w (px s) -> grid h w (px (step s yx))).
  { intros s yx Hs. unfold step. simpl. destruct Hs as (Hr' & Hl' & Hw').
    split; [by apply rect_alter2|]. by rewrite length_alter2, width_alter2. }
  destruct (foldl step (Frame img r) (positions h w)) as [out r'] eqn:Hout.
  exists out, r'. split; [|split].
  - rewrite (run_bind_ok _ _ _ _ _ (run_shape _)). cbn [px fst snd].
    destruct Hg as (Hr & Hl & Hw). rewrite Hl, Hw.
    rewrite (run_scan body step h w); [by rewrite Hout|..|done].
    + intros [img' r0] y x Hs Hy Hx. by eapply body_run.
    + done.
  - change out with (px (Frame out r')). rewrite <- Hout.
    by apply grid_steps.
  - intros y x p Hp.
    destruct (pointwise_scan step Q) with
      (l := positions h w) (s := Frame img r)
      (y := y) (x := x) (p := p) as (v & Hv & HQ).
    + intros s y' x'. exists (c s y' x'). split; [done|]. intros. apply c_Q.
    + apply NoDup_positions.
    + done.
    + rewrite Hout in Hv. exists v. split; [done|].
      rewrite decide_True in HQ; [done|]. apply elem_of_positions.
      destruct Hg as (Hr & <- & <-).
      apply lookup2_is_Some; [done|]. eauto.
Qed.
End PointwiseLoop.

(** ** Every loop leaves quantized values *)

Lemma forward_floyd_steinberg {P} `{Pixel P} :
  forward (floyd_steinberg_kernel (P := P)).
Proof. unfold forward, floyd_steinberg_kernel. repeat constructor; simpl; lia. Qed.

Lemma forward_atkinson {P} `{Pixel P} : forward (atkinson_kernel (P := P)).
Proof. unfold forward, atkinson_kernel. simpl. repeat constructor; simpl; lia. Qed.

Lemma forward_jarvis_judice_ninke {P} `{Pixel P} :
  forward (jarvis_judice_ninke_kernel (P := P)).
Proof. unfold forward, jarvis_judice_ninke_kernel. repeat constructor; simpl; lia. Qed.

Section DiffusionQuantizes.
Context {P : Type} `{Pixel P}.
Variable quantize : P -> M (frame P) P.
Variable quantized : P -> P.
Hypothesis quantize_pure : forall p s, quantize p s = (Ok (quantized p), s).
Variable Q : P -> Prop.
Hypothesis quantized_Q : forall p, Q (quantized p).
Variable strength : f32.

Lemma diffuse_quantizes_to (error_of : P -> P -> P) kernel loops h w :
  forward kernel ->
  (forall img r, rect img ->
     loops (Frame img r) = (Ok tt, Frame (diffuse quantized error_of kernel img) r)) ->
  quantizes h w Q loops.
Proof.
  intros Hf Hrun img r Hg. exists (diffuse quantized error_of kernel img), r.
  destruct Hg as (Hr & <- & <-).
  split; [by apply Hrun|]. split; [by apply grid_diffuse|].
  intros y x v Hv. apply diffuse_quantizes in Hv as [p ->]; done.
Qed.

Lemma floyd_steinberg_quantizes h w :
  quantizes h w Q (floyd_steinberg_loop quantize strength).
Proof.
  eapply diffuse_quantizes_to; [apply forward_floyd_steinberg|].
  intros. by apply run_floyd_steinberg_loop.
Qed.

Lemma atkinson_quantizes h w :
  quantizes h w Q (atkinson_loop quantize strength).
Proof.
  eapply diffuse_quantizes_to; [apply forward_atkinson|].
  intros. by apply run_atkinson_loop.
Qed.

Lemma jarvis_judice_ninke_quantizes h w :
  quantizes h w Q (jarvis_judice_ninke_loop quantize strength).
Proof.
  eapply diffuse_quantizes_to; [apply forward_jarvis_judice_ninke|].
  intros. by apply run_jarvis_judice_ninke_loop.
Qed.
End DiffusionQuantizes.

Lemma gray_level_bw p : black_or_white (gray_level p).
Proof. unfold black_or_white, gray_level. destruct (B32.gt _ _); auto. Qed.

Lemma nearest_entry_of pal pixel : pal <> [] -> entry_of pal (nearest_entry pal pixel).
Proof. apply nearest_entry_elem_of. Qed.

Lemma entry_at_of pal i : (i < length pal)%nat -> entry_of pal (entry_at pal i).
Proof.
  intros Hi. destruct (lookup_lt_is_Some_2 pal i Hi) as [c Hc].
  unfold entry_at. rewrite Hc. exists c. split; [|done].
  apply list_elem_of_lookup. eauto.
Qed.

Section PointwiseQuantizes.
Variables h w : nat.

Lemma ordered_gray_quantizes matrix_size :
  thresholds_exist h w matrix_size ->
  quantizes h w black_or_white (ordered_loop_gray matrix_size).
Proof.
  intros Ht img r Hg.
  destruct (run_pointwise_loop (ordered_pixel_gray matrix_size)
              (fun _ => ordered_level matrix_size) rng
              (fun _ _ _ v => black_or_white v) h w) with (img := img) (r := r)
    as (out & r' & Hrun & Hgo & Hq); [| |done|].
  - intros img' r0 y x Hg' Hy Hx. destruct (Ht y x Hy Hx) as [t Hth].
    by eapply run_ordered_pixel_gray.
  - intros _ y x p. unfold ordered_level, black_or_white.
    destruct (B64.gt _ _); auto.
  - exists out, r'. split; [exact Hrun|]. split; [done|].
    intros y x v Hv.
    destruct (proj2 (lookup2_is_Some img y x (proj1 Hg))) as [p Hp].
    { destruct Hg as (_ & -> & ->), Hgo as (Hro & <- & <-).
      apply lookup2_is_Some; eauto. }
    destruct (Hq y x p Hp) as (v' & Hv' & HQ). congruence.
Qed.

Lemma ordered_color_quantizes matrix_size pal :
  thresholds_exist h w matrix_size -> pal <> [] ->
  quantizes h w (entry_of pal) (ordered_loop_color matrix_size (Some pal)).
Proof.
  intros Ht Hpal img r Hg.
  destruct (run_pointwise_loop (ordered_pixel_color matrix_size (Some pal))
              (fun _ => ordered_entry matrix_size pal) rng
              (fun _ _ _ v => entry_of pal v) h w) with (img := img) (r := r)
    as (out & r' & Hrun & Hgo & Hq); [| |done|].
  - intros img' r0 y x Hg' Hy Hx. destruct (Ht y x Hy Hx) as [t Hth].
    by eapply run_ordered_pixel_color.
  - intros _ y x p. unfold ordered_entry.
    destruct (Nat.eqb_spec (length pal) 2) as [Hlen|_].
    + destruct (B64.gt _ _); apply entry_at_of; lia.
    + by apply nearest_entry_of.
  - exists out, r'. split; [exact Hrun|]. split; [done|].
    intros y x v Hv.
    destruct (proj2 (lookup2_is_Some img y x (proj1 Hg))) as [p Hp].
    { destruct Hg as (_ & -> & ->), Hgo as (Hro & <- & <-).
      apply lookup2_is_Some; eauto. }
    destruct (Hq y x p Hp) as (v' & Hv' & HQ). congruence.
Qed.

Lemma random_gray_quantizes tv :
  quantizes h w black_or_white (random_loop_gray tv).
Proof.
  intros img r Hg.
  destruct (run_pointwise_loop (random_pixel_gray tv)
              (fun s _ _ => random_level tv (rng s 0%nat)) (fun s => drawn 1 (rng s))
              (fun _ _ _ v => black_or_white v) h w) with (img := img) (r := r)
    as (out & r' & Hrun & Hgo & Hq); [| |done|].
  - intros img' r0 y x Hg' Hy Hx. by eapply run_random_pixel_gray.
  - intros s y x p. unfold random_level, black_or_white.
    destruct (B32.gt _ _); auto.
  - exists out, r'. split; [exact Hrun|]. split; [done|].
    intros y x v Hv.
    destruct (proj2 (lookup2_is_Some img y x (proj1 Hg))) as [p Hp].
    { destruct Hg as (_ & -> & ->), Hgo as (Hro & <- & <-).
      apply lookup2_is_Some; eauto. }
    destruct (Hq y x p Hp) as (v' & Hv' & HQ). congruence.
Qed.

Lemma random_color_quantizes tv pal :
  pal <> [] ->
  quantizes h w (entry_of pal) (random_loop_color tv (Some pal)).
Proof.
  intros Hpal img r Hg.
  destruct (run_pointwise_loop (random_pixel_color tv (Some pal))
              (fun s _ _ => random_entry tv pal
                              (rng s 0%nat, rng s 1%nat, rng s 2%nat))
              (fun s => drawn 3 (rng s))
              (fun _ _ _ v => entry_of pal v) h w) with (img := img) (r := r)
    as (out & r' & Hrun & Hgo & Hq); [| |done|].
  - intros img' r0 y x Hg' Hy Hx. by eapply run_random_pixel_color.
  - intros s y x p. unfold random_entry. by apply nearest_entry_of.
  - exists out, r'. split; [exact Hrun|]. split; [done|].
    intros y x v Hv.
    destruct (proj2 (lookup2_is_Some img y x (proj1 Hg))) as [p Hp].
    { destruct Hg as (_ & -> & ->), Hgo as (Hro & <- & <-).
      apply lookup2_is_Some; eauto. }
    destruct (Hq y x p Hp) as (v' & Hv' & HQ). congruence.
Qed.
End PointwiseQuantizes.

(** ** Calls of the five functions *)

Lemma rect_grid {A} (img : list (list A)) :
  rect img -> grid (length img) (width img) img.
Proof. done. Qed.

Lemma grid_map {A B} (f : A -> B) h w (img : list (list A)) :
  grid h w img -> grid h w (map (map f) img).
Proof.
  intros (Hr & Hl & Hw). split; [by apply rect_map|].
  rewrite length_map, width_map by (intros; apply length_map). done.
Qed.

Lemma elem_of_map_grid {A B} (f : A -> B) (img : list (list A)) row v :
  row ∈ map (map f) img -> v ∈ row ->
  exists y x p, lookup2 img y x = Some p /\ v = f p.
Proof.
  intros Hrow Hv. destruct (elem_of_grid _ _ _ Hrow Hv) as (y & x & Hyx).
  rewrite lookup2_map in Hyx. destruct (lookup2 img y x) as [p|] eqn:Hp; [|done].
  injection Hyx as <-. eauto.
Qed.

Lemma gray_call_dithers image rows σ (loops : M (frame f32) unit) palette :
  heap σ !! image = Some (U8 (Gray rows)) ->
  rect rows ->
  quantizes (length rows) (width rows) black_or_white loops ->
  dithers (astype_float32 image ≫= fun img =>
             in_place_gray img loops ≫= fun _ => clip_astype_uint8 img)
    σ (Gray rows) false palette.
Proof.
  intros Himg Hr Hq.
  destruct (Hq (map (map B32.of_Z) rows) (generator σ)) as (out & r' & Hrun & Hg & HQ).
  { by apply grid_map. }
  exists (Gray (map (map clip_uint8) out)). split; [|split; [|split]].
  - by eapply run_gray_call.
  - split; [done|]. by apply rect_map, Hg.
  - destruct (grid_map clip_uint8 _ _ _ Hg) as (_ & Hl & Hw). simpl.
    by rewrite Hl, Hw.
  - intros row v Hrow Hv.
    destruct (elem_of_map_grid _ _ _ _ Hrow Hv) as (y & x & p & Hp & ->).
    destruct (HQ y x p Hp) as [-> | ->]; [right|left]; reflexivity.
Qed.

Lemma clip_uint8_color color :
  color_ok color -> map3 clip_uint8 (map3 B32.of_Z color) = color.
Proof.
  destruct color as [[r g] b]. intros (Hr & Hg & Hb). simpl in *.
  by rewrite !clip_uint8_of_Z.
Qed.

Lemma color_call_dithers image rows σ (loops : M (frame (rgb f32)) unit) palette :
  heap σ !! image = Some (U8 (Color rows)) ->
  rect rows ->
  Forall color_ok (active_palette palette) ->
  quantizes (length rows) (width rows) (entry_of (active_palette palette)) loops ->
  dithers (astype_float32 image ≫= fun img =>
             in_place_color img loops ≫= fun _ => clip_astype_uint8 img)
    σ (Color rows) true palette.
Proof.
  intros Himg Hr Hpal Hq.
  destruct (Hq (map (map (map3 B32.of_Z)) rows) (generator σ))
    as (out & r' & Hrun & Hg & HQ).
  { by apply grid_map. }
  exists (Color (map (map (map3 clip_uint8)) out)). split; [|split; [|split]].
  - by eapply run_color_call.
  - split; [done|]. by apply rect_map, Hg.
  - destruct (grid_map (map3 clip_uint8) _ _ _ Hg) as (_ & Hl & Hw). simpl.
    by rewrite Hl, Hw.
  - intros row v Hrow Hv.
    destruct (elem_of_map_grid _ _ _ _ Hrow Hv) as (y & x & p & Hp & ->).
    destruct (HQ y x p Hp) as (color & Hin & ->).
    rewrite clip_uint8_color; [done|].
    rewrite Forall_forall in Hpal. by apply Hpal.
Qed.

Lemma palette_or_default_active palette :
  palette_or_default true palette = Some (active_palette palette).
Proof. by destruct palette. Qed.

Lemma active_palette_ok palette :
  palette_ok palette ->
  active_palette palette <> [] /\ Forall color_ok (active_palette palette).
Proof.
  destruct palette as [pal|]; simpl; [done|]. intros _. split; [done|].
  unfold default_palette, color_ok, channel_ok. repeat constructor; simpl; lia.
Qed.

(** The shape of a call: the mode fits the array, and the loops of the
    mode quantize. *)
Lemma call_dithers image d σ is_color palette
    (color_loops : M (frame (rgb f32)) unit) (gray_loops : M (frame f32) unit) :
  heap σ !! image = Some (U8 d) ->
  raster_ok is_color d ->
  (is_color = true -> palette_ok palette) ->
  (forall h w, d = Gray (A := Z) h -> w = width h ->
     quantizes (length h) w black_or_white gray_loops) ->
  (forall h w, d = Color (A := Z) h -> w = width h ->
     quantizes (length h) w (entry_of (active_palette palette)) color_loops) ->
  dithers (astype_float32 image ≫= fun img =>
             (if is_color then in_place_color img color_loops
              else in_place_gray img gray_loops) ≫= fun _ =>
             clip_astype_uint8 img)
    σ d is_color palette.
Proof.
  intros Himg Hok Hpal Hgray Hcolor.
  destruct d as [rows|rows]; destruct Hok as [-> Hr].
  - apply gray_call_dithers; eauto.
  - apply color_call_dithers; eauto. by apply active_palette_ok, Hpal.
Qed.

Section FunctionCalls.
Variables (image : loc) (d : raster Z) (σ : world).
Variables (is_color : bool) (palette : option (list (rgb Z))).
Hypothesis image_array : heap σ !! image = Some (U8 d).
Hypothesis image_ok : raster_ok is_color d.
Hypothesis given_palette_ok : is_color = true -> palette_ok palette.

Lemma color_mode rows : d = Color rows -> is_color = true.
Proof. intros ->. by destruct image_ok. Qed.

Lemma diffusion_dithers
    (loop : forall P, Pixel P -> (P -> M (frame P) P) -> f32 -> M (frame P) unit)
    (strength : f32) :
  (forall P (HP : Pixel P) quantize quantized Q h w,
     (forall p s, quantize p s = (Ok (quantized p), s)) ->
     (forall p, Q (quantized p)) ->
     quantizes h w Q (loop P HP quantize strength)) ->
  dithers (astype_float32 image ≫= fun img =>
             (if is_color
              then in_place_color img
                     (loop _ _ (quantize_color (palette_or_default is_color palette))
                        strength)
              else in_place_gray img (loop _ _ quantize_gray strength)) ≫= fun _ =>
             clip_astype_uint8 img)
    σ d is_color palette.
Proof.
  intros Hloop. apply call_dithers; try done.
  - intros rows w _ _. eapply Hloop; [apply quantize_gray_pure|apply gray_level_bw].
  - intros rows w Hd _. rewrite (color_mode rows Hd), palette_or_default_active.
    destruct (active_palette_ok palette (given_palette_ok (color_mode rows Hd)))
      as [Hne _].
    eapply Hloop.
    + intros p s. by apply quantize_color_pure.
    + intros p. by apply nearest_entry_of.
Qed.

Lemma floyd_steinberg_dithers ds :
  dithers (floyd_steinberg_dither image ds is_color palette) σ d is_color palette.
Proof.
  apply (diffusion_dithers (@floyd_steinberg_loop)).
  intros. by eapply floyd_steinberg_quantizes.
Qed.

Lemma atkinson_dithers ds :
  dithers (atkinson_dither image ds is_color palette) σ d is_color palette.
Proof.
  apply (diffusion_dithers (@atkinson_loop)).
  intros. by eapply atkinson_quantizes.
Qed.

Lemma jarvis_judice_ninke_dithers ds :
  dithers (jarvis_judice_ninke_dither image ds is_color palette) σ d is_color palette.
Proof.
  apply (diffusion_dithers (@jarvis_judice_ninke_loop)).
  intros. by eapply jarvis_judice_ninke_quantizes.
Qed.

Lemma ordered_dithers matrix_size :
  (forall h w, raster_shape d = h :: w :: drop 2 (raster_shape d) ->
     thresholds_exist h w matrix_size) ->
  dithers (ordered_dither image matrix_size is_color palette) σ d is_color palette.
Proof.
  intros Ht. unfold ordered_dither. apply call_dithers; try done.
  - intros rows w -> ->. apply ordered_gray_quantizes. by apply Ht.
  - intros rows w Hd ->. rewrite (color_mode rows Hd), palette_or_default_active.
    destruct (active_palette_ok palette (given_palette_ok (color_mode rows Hd)))
      as [Hne _].
    apply ordered_color_quantizes; [|done]. apply Ht. by subst d.
Qed.

Lemma random_dithers tv :
  dithers (random_dither image tv is_color palette) σ d is_color palette.
Proof.
  unfold random_dither. apply call_dithers; try done.
  - intros rows w _ _. apply random_gray_quantizes.
  - intros rows w Hd _. rewrite (color_mode rows Hd), palette_or_default_active.
    destruct (active_palette_ok palette (given_palette_ok (color_mode rows Hd)))
      as [Hne _].
    by apply random_color_quantizes.
Qed.
End FunctionCalls.

(** ** The dispatcher *)

Ltac not_listed H :=
  repeat (apply elem_of_cons in H as [H | H]; [discriminate H|]);
  by apply elem_of_nil in H.

Ltac listed :=
  repeat first [ apply list_elem_of_here | apply list_elem_of_further ].

Lemma accepts_diffusion method kw :
  method ∈ diffusion_methods -> accepts method kw ->
  kw_matrix_size kw = None /\ kw_threshold_variance kw = None.
Proof.
  intros Hm (_ & Hsize & Hvar). split.
  - destruct (kw_matrix_size kw); [|done]. rewrite Hsize in Hm by eauto.
    unfold diffusion_methods in Hm. not_listed Hm.
  - destruct (kw_threshold_variance kw); [|done]. rewrite Hvar in Hm by eauto.
    unfold diffusion_methods in Hm. not_listed Hm.
Qed.

Lemma accepts_ordered kw :
  accepts "ordered" kw ->
  kw_dither_strength kw = None /\ kw_threshold_variance kw = None.
Proof.
  intros (Hds & _ & Hvar). split.
  - destruct (kw_dither_strength kw); [|done].
    specialize (Hds ltac:(eauto)). unfold diffusion_methods in Hds. not_listed Hds.
  - destruct (kw_threshold_variance kw); [|done]. by specialize (Hvar ltac:(eauto)).
Qed.

Lemma accepts_random kw :
  accepts "random" kw ->
  kw_dither_strength kw = None /\ kw_matrix_size kw = None.
Proof.
  intros (Hds & Hsize & _). split.
  - destruct (kw_dither_strength kw); [|done].
    specialize (Hds ltac:(eauto)). unfold diffusion_methods in Hds. not_listed Hds.
  - destruct (kw_matrix_size kw); [|done]. by specialize (Hsize ltac:(eauto)).
Qed.

Lemma apply_dithering_dithers image d σ method is_color kw :
  heap σ !! image = Some (U8 d) ->
  raster_ok is_color d ->
  method ∈ methods ->
  accepts method kw ->
  (is_color = true -> palette_ok (kw_palette kw)) ->
  (method = "ordered"%string ->
   forall h w, raster_shape d = h :: w :: drop 2 (raster_shape d) ->
     thresholds_exist h w (matrix_size_of kw)) ->
  dithers (apply_dithering image method is_color kw) σ d is_color (kw_palette kw).
Proof.
  intros Himg Hok Hm Hacc Hpal Ht. unfold methods in Hm.
  repeat (apply elem_of_cons in Hm as [-> | Hm]); [..|by apply elem_of_nil in Hm].
  - destruct (accepts_diffusion "floyd_steinberg" kw) as [Hsize Hvar];
      [unfold diffusion_methods; listed|done|].
    unfold apply_dithering, call_diffusion. simpl. rewrite Hsize, Hvar.
    by apply floyd_steinberg_dithers.
  - destruct (accepts_diffusion "atkinson" kw) as [Hsize Hvar];
      [unfold diffusion_methods; listed|done|].
    unfold apply_dithering, call_diffusion. simpl. rewrite Hsize, Hvar.
    by apply atkinson_dithers.
  - destruct (accepts_diffusion "jarvis_judice_ninke" kw) as [Hsize Hvar];
      [unfold diffusion_methods; listed|done|].
    unfold apply_dithering, call_diffusion. simpl. rewrite Hsize, Hvar.
    by apply jarvis_judice_ninke_dithers.
  - destruct (accepts_ordered kw Hacc) as [Hds Hvar].
    unfold apply_dithering, call_ordered. simpl. rewrite Hds, Hvar.
    apply ordered_dithers; try done. by apply Ht.
  - destruct (accepts_random kw Hacc) as [Hds Hsize].
    unfold apply_dithering, call_random. simpl. rewrite Hds, Hsize.
    by apply random_dithers.
Qed.

Lemma valid_thresholds_exist h w kw :
  (forall m, kw_matrix_size kw = Some m -> m = 2 \/ m = 4 \/ m = 8) ->
  thresholds_exist h w (matrix_size_of kw).
Proof.
  intros Hm y x _ _.
  destruct (bayer_threshold_valid (matrix_size_of kw) y x) as (k & _ & Hk); [|eauto].
  unfold matrix_size_of. destruct (kw_matrix_size kw) as [m|]; simpl; [eauto|].
  unfold default_matrix_size. lia.
Qed.

(** ** Small rasters *)

Lemma small_thresholds_exist h w m :
  0 < m -> (h <= 2)%nat -> (w <= 2)%nat -> thresholds_exist h w m.
Proof.
  intros Hm Hh Hw y x Hy Hx.
  assert (Hsmall : forall n : nat, (n < 2)%nat -> 0 <= Z.of_nat n mod m < 2).
  { intros n Hn. pose proof (Z.mod_pos_bound (Z.of_nat n) m Hm).
    pose proof (Z.mod_le (Z.of_nat n) m ltac:(lia) Hm). lia. }
  assert (Hrows : 2 <= Z.of_nat (length (bayer_matrix m)) /\
                  Forall (fun row => 2 <= Z.of_nat (length row)) (bayer_matrix m)).
  { unfold bayer_matrix. destruct (m =? 2); [|destruct (m =? 4)];
      (split; [simpl; lia|repeat constructor; simpl; lia]). }
  destruct Hrows as [Hlen Hrows].
  unfold bayer_threshold, py_mod. destruct (Z.eqb_spec m 0) as [->|_]; [lia|].
  destruct (np_index_in_range (bayer_matrix m) (Z.of_nat y mod m))
    as (row & Hrow & ->).
  { specialize (Hsmall y). lia. }
  rewrite Forall_lookup in Hrows. specialize (Hrows _ _ Hrow). simpl in Hrows.
  destruct (np_index_in_range row (Z.of_nat x mod m)) as (t & _ & ->).
  { specialize (Hsmall x). lia. }
  eauto.
Qed.

(** * The claims *)

Lemma no_kwargs_accepted method : accepts method no_kwargs.
Proof. repeat split; intros [? [=]]. Qed.

Lemma no_kwargs_valid method : valid_kwargs method no_kwargs.
Proof.
  split; [apply no_kwargs_accepted|]. split; [intros m [=]|exact I].
Qed.

Lemma rect_small_image : rect small_image.
Proof. unfold rect, small_image. simpl. repeat constructor. Qed.





(** C8 — unknown method.  For a method name that is not one of the five,
    [apply_dithering] raises ValueError, whatever the other arguments are,
    and the world is as before the call: nothing was allocated or
    written. *)
Theorem unknown_method_rejected image σ method is_color kw :
  method ∉ methods ->
  apply_dithering image method is_color kw σ = (Raise ValueError, σ).
Proof.
  intros Hm. unfold apply_dithering.
  repeat match goal with
  | |- context [String.eqb method ?name] =>
      destruct (String.eqb_spec method name) as [->|_];
      [exfalso; apply Hm; unfold methods; listed|]
  end.
  reflexivity.
Qed.

Lemma unknown_method_rejected_witness :
  apply_dithering 1%positive "invalid_method" false no_kwargs
    (world_of (U8 (Gray small_image))) =
  (Raise ValueError, world_of (U8 (Gray small_image))).
Proof.
  apply (unknown_method_rejected 1%positive (world_of (U8 (Gray small_image)))
           "invalid_method" false no_kwargs).
  unfold methods. intros H. not_listed H.
Defined.

(** C9 — boundary safety.  On a grayscale raster of one pixel or of two
    rows of two, each of the five methods (any dither strength, any
    threshold variance, any matrix size from 1 up) returns normally: no
    index leaves the raster or the matrix.  The result has the shape of the
    input and every pixel is 0 or 255. *)
Theorem small_rasters_safe image rows σ method kw :
  heap σ !! image = Some (U8 (Gray rows)) ->
  small_raster rows ->
  method ∈ methods ->
  accepts method kw ->
  (forall m, kw_matrix_size kw = Some m -> 0 < m) ->
  exists out,
    returns (apply_dithering image method false kw) σ (U8 (Gray out)) /\
    length out = length rows /\ width out = width rows /\
    forall row v, row ∈ out -> v ∈ row -> v = 0 \/ v = 255.
Proof.
  intros Himg Hsmall Hm Hacc Hsize.
  assert (Hr : rect rows /\ (length rows <= 2)%nat /\ (width rows <= 2)%nat).
  { destruct Hsmall as [(a & ->)|(a & b & c & d & ->)];
      (split; [unfold rect; simpl; repeat constructor|simpl; lia]). }
  destruct Hr as (Hr & Hh & Hw).
  destruct (apply_dithering_dithers image (Gray rows) σ method false kw)
    as (out & Hret & Hout & Hshape & Hin); try done.
  - intros _ h w [= <- <-]. apply small_thresholds_exist; [|done..].
    unfold matrix_size_of. destruct (kw_matrix_size kw) as [m|] eqn:Hkw; simpl.
    + by apply Hsize.
    + unfold default_matrix_size. lia.
  - destruct out as [out|out]; [|by destruct Hout].
    injection Hshape as Hl Hw'. eauto.
Qed.

Lemma small_rasters_safe_witness :
  exists out,
    returns (apply_dithering 1%positive "jarvis_judice_ninke" false no_kwargs)
      (world_of (U8 (Gray single_pixel))) (U8 (Gray out)) /\
    length out = 1%nat /\ width out = 1%nat /\
    forall row v, row ∈ out -> v ∈ row -> v = 0 \/ v = 255.
Proof.
  apply (small_rasters_safe 1%positive single_pixel
           (world_of (U8 (Gray single_pixel))) "jarvis_judice_ninke" no_kwargs).
  - reflexivity.
  - left. exists 128. reflexivity.
  - unfold methods. listed.
  - apply no_kwargs_accepted.
  - intros m [=].
Defined.

(** ** Frame: what a call writes *)

Lemma keeps_insert_fresh σ (h : gmap loc ndarray) l a :
  heap σ ⊆ h -> heap σ !! l = None -> heap σ ⊆ <[l := a]> h.
Proof. intros Hsub Hl. by apply insert_subseteq_r. Qed.

Lemma alloc_keeps σ0 σ a :
  heap σ0 ⊆ heap σ ->
  keeps σ0 (alloc a σ) /\ returns_new σ0 (alloc a σ).
Proof.
  intros Hsub. rewrite run_alloc. unfold keeps, returns_new. simpl.
  assert (Hnone : heap σ0 !! fresh (dom (heap σ)) = None).
  { eapply lookup_weaken_None; [apply fresh_loc_None|done]. }
  split; [by apply keeps_insert_fresh|done].
Qed.

Lemma clip_astype_keeps σ0 σ img :
  heap σ0 ⊆ heap σ ->
  keeps σ0 (clip_astype_uint8 img σ) /\ returns_new σ0 (clip_astype_uint8 img σ).
Proof.
  intros Hsub. unfold clip_astype_uint8.
  destruct (heap σ !! img) as [[d|d]|]; [by apply alloc_keeps..|].
  split; [done|exact I].
Qed.

Lemma in_place_gray_keeps {A} σ0 σ img (loops : M (frame f32) A) :
  heap σ0 ⊆ heap σ -> heap σ0 !! img = None ->
  heap σ0 ⊆ heap (in_place_gray img loops σ).2.
Proof.
  intros Hsub Hnew. unfold in_place_gray.
  destruct (heap σ !! img) as [[d|[rows|rows]]|]; simpl; try done.
  destruct (loops _) as [r s]. simpl. by apply keeps_insert_fresh.
Qed.

Lemma in_place_color_keeps {A} σ0 σ img (loops : M (frame (rgb f32)) A) :
  heap σ0 ⊆ heap σ -> heap σ0 !! img = None ->
  heap σ0 ⊆ heap (in_place_color img loops σ).2.
Proof.
  intros Hsub Hnew. unfold in_place_color.
  destruct (heap σ !! img) as [[d|[rows|rows]]|]; simpl; try done.
  destruct (loops _) as [r s]. simpl. by apply keeps_insert_fresh.
Qed.

(** The frame of the five functions: the copy is a new object, the loops
    write the copy, the result is a new object. *)
Lemma call_keeps (image : loc) (σ : world) (is_color : bool)
    (color_loops : M (frame (rgb f32)) unit) (gray_loops : M (frame f32) unit) :
  let call : M world loc :=
    astype_float32 image ≫= fun img =>
      (if is_color then in_place_color img color_loops
       else in_place_gray img gray_loops) ≫= fun _ =>
      clip_astype_uint8 img in
  keeps σ (call σ) /\ returns_new σ (call σ).
Proof.
  intros call. subst call. rewrite run_bind.
  assert (Hcopy : forall a,
    astype_float32 image σ = alloc a σ \/ astype_float32 image σ = (Raise TypeError, σ) ->
    exists r σ1, astype_float32 image σ = (r, σ1) /\ heap σ ⊆ heap σ1 /\
      match r with Ok img => heap σ !! img = None | Raise _ => True end).
  { intros a [->| ->].
    - rewrite run_alloc. eexists _, _. split; [done|]. simpl.
      split; [|apply fresh_loc_None]. apply insert_subseteq, fresh_loc_None.
    - eexists _, _. split; [done|]. split; [apply reflexivity|done]. }
  assert (H1 : exists r σ1, astype_float32 image σ = (r, σ1) /\ heap σ ⊆ heap σ1 /\
      match r with Ok img => heap σ !! img = None | Raise _ => True end).
  { unfold astype_float32 in *.
    destruct (heap σ !! image) as [[d|d]|]; [eapply Hcopy; by left..|].
    eapply (Hcopy (U8 (Gray []))). by right. }
  destruct H1 as (r & σ1 & -> & Hsub & Hnew).
  destruct r as [img|e]; [|split; [exact Hsub|exact I]].
  rewrite run_bind.
  assert (H2 : heap σ ⊆ heap
    ((if is_color then in_place_color img color_loops
      else in_place_gray img gray_loops) σ1).2).
  { destruct is_color; [by apply in_place_color_keeps|by apply in_place_gray_keeps]. }
  destruct ((if is_color then in_place_color img color_loops
             else in_place_gray img gray_loops) σ1) as [[[]|e] σ2]; simpl in H2.
  - by apply clip_astype_keeps.
  - split; [exact H2|exact I].
Qed.

Lemma raise_keeps σ e : keeps σ (raise (A := loc) e σ) /\ returns_new σ (raise e σ).
Proof. split; [unfold keeps; simpl; apply reflexivity|exact I]. Qed.

Lemma call_diffusion_keeps f image is_color kw σ :
  (forall ds palette,
     keeps σ (f image ds is_color palette σ) /\
     returns_new σ (f image ds is_color palette σ)) ->
  keeps σ (call_diffusion f image is_color kw σ) /\
  returns_new σ (call_diffusion f image is_color kw σ).
Proof.
  intros Hf. unfold call_diffusion.
  destruct (kw_matrix_size kw), (kw_threshold_variance kw);
    first [apply raise_keeps | apply Hf].
Qed.

(** C10 — the input is left unchanged.  After a call of any of the five
    functions or of [apply_dithering], with any arguments and whether it
    returns or raises, every array that was in the heap before the call,
    the input among them, is there with the value it had; the array
    returned is a new object.  The loops write only the copy that
    [astype] allocated. *)
Theorem input_unchanged image σ is_color palette :
  (forall ds,
     keeps σ (floyd_steinberg_dither image ds is_color palette σ) /\
     returns_new σ (floyd_steinberg_dither image ds is_color palette σ)) /\
  (forall ds,
     keeps σ (atkinson_dither image ds is_color palette σ) /\
     returns_new σ (atkinson_dither image ds is_color palette σ)) /\
  (forall ds,
     keeps σ (jarvis_judice_ninke_dither image ds is_color palette σ) /\
     returns_new σ (jarvis_judice_ninke_dither image ds is_color palette σ)) /\
  (forall matrix_size,
     keeps σ (ordered_dither image matrix_size is_color palette σ) /\
     returns_new σ (ordered_dither image matrix_size is_color palette σ)) /\
  (forall threshold_variance,
     keeps σ (random_dither image threshold_variance is_color palette σ) /\
     returns_new σ (random_dither image threshold_variance is_color palette σ)) /\
  (forall method kw,
     keeps σ (apply_dithering image method is_color kw σ) /\
     returns_new σ (apply_dithering image method is_color kw σ)).
Proof.
  assert (Hfs : forall pal ds,
     keeps σ (floyd_steinberg_dither image ds is_color pal σ) /\
     returns_new σ (floyd_steinberg_dither image ds is_color pal σ)).
  { intros. apply call_keeps. }
  assert (Hat : forall pal ds,
     keeps σ (atkinson_dither image ds is_color pal σ) /\
     returns_new σ (atkinson_dither image ds is_color pal σ)).
  { intros. apply call_keeps. }
  assert (Hjjn : forall pal ds,
     keeps σ (jarvis_judice_ninke_dither image ds is_color pal σ) /\
     returns_new σ (jarvis_judice_ninke_dither image ds is_color pal σ)).
  { intros. apply call_keeps. }
  assert (Hord : forall pal m,
     keeps σ (ordered_dither image m is_color pal σ) /\
     returns_new σ (ordered_dither image m is_color pal σ)).
  { intros. apply call_keeps. }
  assert (Hrnd : forall pal tv,
     keeps σ (random_dither image tv is_color pal σ) /\
     returns_new σ (random_dither image tv is_color pal σ)).
  { intros. apply call_keeps. }
  split; [apply Hfs|]. split; [apply Hat|]. split; [apply Hjjn|].
  split; [apply Hord|]. split; [apply Hrnd|].
  intros method kw. unfold apply_dithering.
  destruct (String.eqb method "floyd_steinberg");
    [apply call_diffusion_keeps; intros; apply Hfs|].
  destruct (String.eqb method "atkinson");
    [apply call_diffusion_keeps; intros; apply Hat|].
  destruct (String.eqb method "jarvis_judice_ninke");
    [apply call_diffusion_keeps; intros; apply Hjjn|].
  destruct (String.eqb method "ordered").
  { unfold call_ordered.
    destruct (kw_dither_strength kw), (kw_threshold_variance kw);
      first [apply raise_keeps | apply Hord]. }
  destruct (String.eqb method "random").
  { unfold call_random.
    destruct (kw_dither_strength kw), (kw_matrix_size kw);
      first [apply raise_keeps | apply Hrnd]. }
  apply raise_keeps.
Qed.

(** C2 — Floyd-Steinberg, step by step.  On every rectangular grayscale
    raster and for every dither strength, [floyd_steinberg_dither] returns
    the raster the procedure of the specification computes: row-major scan
    of a float accumulator, quantization at 128, the error scaled by the
    strength and shared as 7/16, 3/16, 5/16 and 1/16 among the four
    neighbours that are inside the raster, then the clamp to [0, 255] and
    the conversion to 8-bit integers. *)
Theorem floyd_steinberg_refines_spec image rows σ dither_strength palette :
  heap σ !! image = Some (U8 (Gray rows)) ->
  rect rows ->
  returns (floyd_steinberg_dither image dither_strength false palette) σ
    (U8 (Gray (spec_floyd_steinberg dither_strength rows))).
Proof.
  intros Himg Hr. unfold floyd_steinberg_dither.
  apply (run_gray_call image rows σ _ _ (generator σ)); [done|].
  exact (run_floyd_steinberg_loop quantize_gray gray_level quantize_gray_pure
           (B32.of_f64 dither_strength) (map (map B32.of_Z) rows) (generator σ)
           (rect_map B32.of_Z rows Hr)).
Qed.

Lemma floyd_steinberg_refines_spec_witness :
  returns (floyd_steinberg_dither 1%positive (B64.of_Z 1) false None)
    (world_of (U8 (Gray small_image)))
    (U8 (Gray (spec_floyd_steinberg (B64.of_Z 1) small_image))).
Proof.
  apply (floyd_steinberg_refines_spec 1%positive small_image
           (world_of (U8 (Gray small_image))) (B64.of_Z 1) None).
  - reflexivity.
  - apply rect_small_image.
Defined.

(** The regression baseline of the specification's scenario: the raster
    [[100, 150], [200, 50]] at full strength. *)
Example spec_floyd_steinberg_small_image :
  spec_floyd_steinberg (B64.of_Z 1) small_image = [[0; 255]; [255; 0]].
Proof. vm_compute. reflexivity. Qed.

(** ** A scan whose deposits change nothing *)

Lemma alter2_id_at {A} (f : A -> A) (img : list (list A)) y x :
  (forall p, lookup2 img y x = Some p -> f p = p) -> alter2 f y x img = img.
Proof.
  intros Hf. unfold alter2.
  rewrite <- (list_alter_id id img y) at 2 by done.
  apply list_alter_ext; [|done]. intros row Hrow. unfold id.
  rewrite <- (list_alter_id id row x) at 2 by done.
  apply list_alter_ext; [|done]. intros p Hp. apply Hf.
  apply lookup2_Some. eauto.
Qed.

Section Neutral.
Context {P : Type} `{Pixel P}.
Variable quantized : P -> P.
Variable error_of : P -> P -> P.
Variable kernel : list (Z * Z * (P -> P)).
Variable good : P -> Prop.
Hypothesis good_quantized : forall p, good p -> good (quantized p).
Hypothesis neutral : forall old p entry,
  good old -> good p -> entry ∈ kernel ->
  padd p (entry.2 (error_of old (quantized old))) = p.

Lemma all_good_alter2 img y x :
  all_good good img -> all_good good (alter2 quantized y x img).
Proof.
  intros Hg y' x' p. rewrite lookup2_alter2. case_decide as Hyx.
  - destruct (lookup2 img y x) as [q|] eqn:Hq; [|done].
    intros [= <-]. eauto.
  - apply Hg.
Qed.

Lemma deposits_neutral h w y x old img entries :
  good old -> all_good good img -> entries ⊆ kernel ->
  foldl (deposit h w y x (error_of old (quantized old))) img entries = img.
Proof.
  intros Hold Hg. induction entries as [|[[dy dx] share] entries IH];
    intros Hsub; cbn [foldl]; [done|].
  assert (Hin : (dy, dx, share) ∈ kernel) by (apply Hsub; left).
  assert (Hdep : deposit h w y x (error_of old (quantized old)) img (dy, dx, share)
                 = img).
  { unfold deposit. destruct (in_bounds _ _ _ _); [|done].
    apply alter2_id_at. intros p Hp.
    apply (neutral old p (dy, dx, share)); eauto. }
  rewrite Hdep. apply IH. intros e He. apply Hsub. by right.
Qed.

Lemma diffuse_pixel_neutral h w img y x :
  all_good good img ->
  diffuse_pixel quantized error_of kernel h w img (y, x) =
  alter2 quantized y x img.
Proof.
  intros Hg. unfold diffuse_pixel.
  destruct (lookup2 img y x) as [old|] eqn:Hold.
  - rewrite deposits_neutral; [by eapply alter2_at|by eapply Hg| |done].
    intros y' x' p. rewrite lookup2_alter2. case_decide as Hyx; [|apply Hg].
    rewrite Hold. intros [= <-]. apply good_quantized. by eapply Hg.
  - symmetry. apply alter2_id_at. congruence.
Qed.

Lemma diffuse_steps_neutral h w l img :
  all_good good img ->
  foldl (diffuse_pixel quantized error_of kernel h w) img l =
  foldl (fun img yx => alter2 quantized yx.1 yx.2 img) img l.
Proof.
  revert img. induction l as [|[y x] l IH]; intros img Hg; cbn [foldl]; [done|].
  rewrite diffuse_pixel_neutral by done. apply IH. by apply all_good_alter2.
Qed.
End Neutral.

Lemma grid_foldl_alter2 {A} (f : A -> A) h w l (img : list (list A)) :
  grid h w img -> grid h w (foldl (fun img yx => alter2 f yx.1 yx.2 img) img l).
Proof.
  revert img. induction l as [|yx l IH]; intros img Hg; simpl; [done|].
  apply IH. destruct Hg as (Hr & Hl & Hw). split; [by apply rect_alter2|].
  by rewrite length_alter2, width_alter2.
Qed.

Lemma lookup2_alter2_all {A} (f : A -> A) h w (img : list (list A)) y x :
  grid h w img ->
  lookup2 (foldl (fun img yx => alter2 f yx.1 yx.2 img) img (positions h w)) y x =
  f <$> lookup2 img y x.
Proof.
  intros Hg.
  pose (step := fun (s : frame A) (yx : nat * nat) =>
          Frame (alter2 f yx.1 yx.2 (px s)) (rng s)).
  assert (Hfold : forall l img0,
    px (foldl step (Frame img0 silent) l) =
    foldl (fun img yx => alter2 f yx.1 yx.2 img) img0 l).
  { intros l img0. unfold step.
    rewrite (foldl_frame (fun img yx => alter2 f yx.1 yx.2 img)). done. }
  destruct (lookup2 img y x) as [p|] eqn:Hp.
  - rewrite <- Hfold.
    destruct (pointwise_scan step (fun _ _ p v => v = f p)) with
      (l := positions h w) (s := Frame img silent) (y := y) (x := x) (p := p)
      as (v & Hv & HQ).
    + intros s y' x'. exists f. done.
    + apply NoDup_positions.
    + done.
    + rewrite decide_True in HQ.
      * by subst v.
      * apply elem_of_positions. destruct Hg as (Hr & <- & <-).
        apply lookup2_is_Some; eauto.
  - simpl. pose proof (grid_foldl_alter2 f h w (positions h w) img Hg) as Hg'.
    destruct (lookup2 (foldl _ img (positions h w)) y x) as [v|] eqn:Hv; [|done].
    exfalso. assert (Hs : is_Some (lookup2 img y x)).
    { destruct Hg as (Hr & Hl & Hw), Hg' as (Hr' & Hl' & Hw').
      apply lookup2_is_Some; [done|]. rewrite Hl, Hw.
      assert (Hin : is_Some (lookup2 (foldl
                (fun img yx => alter2 f yx.1 yx.2 img) img (positions h w)) y x))
        by eauto.
      apply lookup2_is_Some in Hin; [|done]. by rewrite Hl', Hw' in Hin. }
    rewrite Hp in Hs. by destruct Hs.
Qed.

(** ** Strength 0.0 on 8-bit values *)

Lemma spec_float_eqb_eq x y : spec_float_eqb x y = true -> x = y.
Proof.
  destruct x as [s|s| |s m e], y as [s'|s'| |s' m' e']; simpl; try done.
  - by intros ->%Bool.eqb_prop.
  - by intros ->%Bool.eqb_prop.
  - rewrite !andb_true_iff.
    by intros [[->%Bool.eqb_prop ->%Pos.eqb_eq] ->%Z.eqb_eq].
Qed.

Lemma zero_error_scaled v :
  0 <= v <= 255 ->
  is_zero (scaled_error (B32.of_f64 zero_strength) (B32.of_Z v)
             (gray_level (B32.of_Z v))) = true.
Proof.
  intros Hv.
  apply (all_below_spec 256 (fun v =>
    is_zero (scaled_error (B32.of_f64 zero_strength) (B32.of_Z v)
               (gray_level (B32.of_Z v))))); [|lia].
  vm_compute. reflexivity.
Qed.

Lemma zero_error_eighth v :
  0 <= v <= 255 ->
  is_zero (eighth_error (B32.of_f64 zero_strength) (B32.of_Z v)
             (gray_level (B32.of_Z v))) = true.
Proof.
  intros Hv.
  apply (all_below_spec 256 (fun v =>
    is_zero (eighth_error (B32.of_f64 zero_strength) (B32.of_Z v)
               (gray_level (B32.of_Z v))))); [|lia].
  vm_compute. reflexivity.
Qed.

Lemma zero_share e n d :
  is_zero e = true -> 0 < n -> 0 < d -> n < 256 -> d < 256 ->
  is_zero (weighted (P := f32) e n d) = true.
Proof.
  intros He Hn Hd Hn' Hd'. destruct e as [s| | |]; try discriminate.
  assert (Hfin : forall k, 0 < k < 256 ->
            exists m ex, B32.of_Z k = S754_finite false m ex).
  { intros k Hk.
    assert (Hb : (k =? 0) || match B32.of_Z k with S754_finite false _ _ => true
                             | _ => false end = true).
    { apply (all_below_spec 256 (fun k =>
        (k =? 0) || match B32.of_Z k with S754_finite false _ _ => true
                    | _ => false end)); [vm_compute; reflexivity|lia]. }
    destruct (Z.eqb_spec k 0); [lia|]. simpl in Hb.
    destruct (B32.of_Z k) as [| | |[] m ex]; try discriminate. eauto. }
  destruct (Hfin n) as (mn & en & Hnf); [lia|].
  destruct (Hfin d) as (md & ed & Hdf); [lia|].
  unfold weighted. simpl. rewrite Hnf, Hdf. reflexivity.
Qed.

Lemma add_zero_uint8 p e :
  uint8_float p -> is_zero e = true -> B32.add p e = p.
Proof.
  intros (v & Hv & ->) He. destruct e as [s| | |]; try discriminate.
  apply spec_float_eqb_eq.
  assert (Hb : spec_float_eqb (B32.add (B32.of_Z v) (S754_zero true)) (B32.of_Z v) &&
               spec_float_eqb (B32.add (B32.of_Z v) (S754_zero false)) (B32.of_Z v)
               = true).
  { apply (all_below_spec 256 (fun v =>
      spec_float_eqb (B32.add (B32.of_Z v) (S754_zero true)) (B32.of_Z v) &&
      spec_float_eqb (B32.add (B32.of_Z v) (S754_zero false)) (B32.of_Z v)));
      [vm_compute; reflexivity|lia]. }
  apply andb_true_iff in Hb as [Ht Hf]. by destruct s.
Qed.

Lemma gray_level_uint8 p : uint8_float (gray_level p).
Proof.
  unfold gray_level. destruct (B32.gt _ _); [exists 255|exists 0]; split; (lia || done).
Qed.

Lemma clip_uint8_gray_level v :
  0 <= v <= 255 -> clip_uint8 (gray_level (B32.of_Z v)) = threshold_pixel v.
Proof.
  intros Hv. apply Z.eqb_eq.
  apply (all_below_spec 256 (fun v =>
    clip_uint8 (gray_level (B32.of_Z v)) =? threshold_pixel v)); [|lia].
  vm_compute. reflexivity.
Qed.

Lemma kernel_shares_zero (kernel : list (Z * Z * (f32 -> f32))) e entry :
  Forall (fun entry => exists n d, 0 < n < 256 /\ 0 < d < 256 /\
            entry.2 = fun e => weighted e n d) kernel ->
  entry ∈ kernel -> is_zero e = true -> is_zero (entry.2 e) = true.
Proof.
  intros Hk Hin He. rewrite Forall_forall in Hk.
  destruct (Hk entry Hin) as (n & d & Hn & Hd & Heq).
  destruct entry as [[dy dx] share]. simpl in *. subst share.
  apply zero_share; (assumption || lia).
Qed.

Lemma grid_eq {A} h w (a b : list (list A)) :
  grid h w a -> grid h w b ->
  (forall y x, lookup2 a y x = lookup2 b y x) -> a = b.
Proof.
  intros (Hra & Hla & Hwa) (Hrb & Hlb & Hwb) Heq. apply grid_ext; [lia| |done].
  intros y [ra Ha]. assert (Hy : (y < length b)%nat).
  { apply lookup_lt_Some in Ha. lia. }
  destruct (lookup_lt_is_Some_2 b y Hy) as [rb Hb]. exists ra, rb.
  split; [done|]. split; [done|].
  rewrite (rect_row a y ra), (rect_row b y rb) by done. lia.
Qed.

Lemma foldl_alter2_map {A} (f : A -> A) h w (img : list (list A)) :
  grid h w img ->
  foldl (fun img yx => alter2 f yx.1 yx.2 img) img (positions h w) =
  map (map f) img.
Proof.
  intros Hg. apply (grid_eq h w).
  - by apply grid_foldl_alter2.
  - by apply grid_map.
  - intros y x. rewrite lookup2_alter2_all by done. by rewrite lookup2_map.
Qed.

(** With strength 0.0 the scan of an 8-bit raster is the quantization of
    each pixel on its own. *)
Lemma diffuse_zero_strength (error_of : f32 -> f32 -> f32) kernel img :
  (forall v, 0 <= v <= 255 ->
     is_zero (error_of (B32.of_Z v) (gray_level (B32.of_Z v))) = true) ->
  (forall entry e, entry ∈ kernel -> is_zero e = true -> is_zero (entry.2 e) = true) ->
  rect img -> all_good uint8_float img ->
  diffuse gray_level error_of kernel img = map (map gray_level) img.
Proof.
  intros Herr Hshare Hr Hg. unfold diffuse.
  rewrite (diffuse_steps_neutral gray_level error_of kernel uint8_float); try done.
  - by apply foldl_alter2_map.
  - intros p _. apply gray_level_uint8.
  - intros old p entry (v & Hv & ->) Hp Hin. simpl.
    apply add_zero_uint8; [done|]. apply Hshare; [done|]. by apply Herr.
Qed.

Lemma weighted_kernel_floyd_steinberg :
  Forall (fun entry : Z * Z * (f32 -> f32) => exists n d, 0 < n < 256 /\ 0 < d < 256 /\
            entry.2 = fun e => weighted e n d) floyd_steinberg_kernel.
Proof.
  unfold floyd_steinberg_kernel.
  repeat (apply List.Forall_cons;
    [cbn [snd]; eexists _, _; (split; [|split; [|reflexivity]]); lia|]).
  apply List.Forall_nil.
Qed.

Lemma weighted_kernel_jarvis_judice_ninke :
  Forall (fun entry : Z * Z * (f32 -> f32) => exists n d, 0 < n < 256 /\ 0 < d < 256 /\
            entry.2 = fun e => weighted e n d) jarvis_judice_ninke_kernel.
Proof.
  unfold jarvis_judice_ninke_kernel.
  repeat (apply List.Forall_cons;
    [cbn [snd]; eexists _, _; (split; [|split; [|reflexivity]]); lia|]).
  apply List.Forall_nil.
Qed.

Lemma all_good_of_uint8 rows :
  uint8_raster rows -> all_good uint8_float (map (map B32.of_Z) rows).
Proof.
  intros Hu y x p. rewrite lookup2_map.
  destruct (lookup2 rows y x) as [v|] eqn:Hv; [|done]. intros [= <-].
  apply lookup2_Some in Hv as (row & Hrow & Hcell).
  exists v. split; [|done].
  apply (Hu row v); apply list_elem_of_lookup; eauto.
Qed.

Lemma thresholded_of_uint8 rows :
  uint8_raster rows ->
  map (map clip_uint8) (map (map gray_level) (map (map B32.of_Z) rows)) =
  thresholded rows.
Proof.
  intros Hu. unfold thresholded. rewrite !map_map.
  apply map_ext_in. intros row Hrow. rewrite !map_map.
  apply map_ext_in. intros v Hv. apply clip_uint8_gray_level.
  apply (Hu row v); by apply list_elem_of_In.
Qed.

(** C6 — strength 0.  On every rectangular grayscale raster of 8-bit
    values, [floyd_steinberg_dither], [atkinson_dither] and
    [jarvis_judice_ninke_dither] called with [dither_strength = 0.0] return
    the raster of the plain thresholding of the input, 255 where the input
    value is greater than 128 and 0 elsewhere: the error every step shares
    is a zero, and adding it changes no neighbour. *)
Theorem strength_zero_thresholds image rows σ palette :
  heap σ !! image = Some (U8 (Gray rows)) ->
  rect rows ->
  uint8_raster rows ->
  returns (floyd_steinberg_dither image zero_strength false palette) σ
    (U8 (Gray (thresholded rows))) /\
  returns (atkinson_dither image zero_strength false palette) σ
    (U8 (Gray (thresholded rows))) /\
  returns (jarvis_judice_ninke_dither image zero_strength false palette) σ
    (U8 (Gray (thresholded rows))).
Proof.
  intros Himg Hr Hu.
  assert (Hr32 : rect (map (map B32.of_Z) rows)) by (by apply rect_map).
  pose proof (all_good_of_uint8 rows Hu) as Hg.
  rewrite <- (thresholded_of_uint8 rows Hu).
  split; [|split].
  - unfold floyd_steinberg_dither.
    apply (run_gray_call image rows σ _ _ (generator σ)); [done|].
    rewrite (run_floyd_steinberg_loop quantize_gray gray_level) by done.
    rewrite diffuse_zero_strength; try done.
    + apply zero_error_scaled.
    + intros entry e. apply kernel_shares_zero, weighted_kernel_floyd_steinberg.
  - unfold atkinson_dither.
    apply (run_gray_call image rows σ _ _ (generator σ)); [done|].
    rewrite (run_atkinson_loop quantize_gray gray_level) by done.
    rewrite diffuse_zero_strength; try done.
    + apply zero_error_eighth.
    + intros entry e Hin He. unfold atkinson_kernel in Hin.
      change (map ?f ?l) with (f <$> l) in Hin.
      apply list_elem_of_fmap in Hin as (o & -> & _). exact He.
  - unfold jarvis_judice_ninke_dither.
    apply (run_gray_call image rows σ _ _ (generator σ)); [done|].
    rewrite (run_jarvis_judice_ninke_loop quantize_gray gray_level) by done.
    rewrite diffuse_zero_strength; try done.
    + apply zero_error_scaled.
    + intros entry e. apply kernel_shares_zero, weighted_kernel_jarvis_judice_ninke.
Qed.

Lemma strength_zero_thresholds_witness :
  returns (floyd_steinberg_dither 1%positive zero_strength false None)
    (world_of (U8 (Gray small_image))) (U8 (Gray [[0; 255]; [255; 0]])) /\
  returns (atkinson_dither 1%positive zero_strength false None)
    (world_of (U8 (Gray small_image))) (U8 (Gray [[0; 255]; [255; 0]])) /\
  returns (jarvis_judice_ninke_dither 1%positive zero_strength false None)
    (world_of (U8 (Gray small_image))) (U8 (Gray [[0; 255]; [255; 0]])).
Proof.
  apply (strength_zero_thresholds 1%positive small_image
           (world_of (U8 (Gray small_image))) None).
  - reflexivity.
  - apply rect_small_image.
  - intros row v Hrow Hv. unfold small_image in Hrow.
    repeat (apply elem_of_cons in Hrow as [-> | Hrow]);
      [..|by apply elem_of_nil in Hrow];
      repeat (apply elem_of_cons in Hv as [-> | Hv]);
      try lia; by apply elem_of_nil in Hv.
Defined.

(** ** The Atkinson step *)

Section AtkinsonStep.
Context {P : Type} `{Pixel P}.
Variable quantize : P -> M (frame P) P.
Variable quantized : P -> P.
Hypothesis quantize_pure : forall p s, quantize p s = (Ok (quantized p), s).
Variable strength : f32.

Lemma lookup2_deposit_grid h w y x e (img : list (list P)) dy dx share y' x' :
  grid h w img ->
  lookup2 (deposit h w y x e img (dy, dx, share)) y' x' =
  if decide (Z.of_nat y' = Z.of_nat y + dy /\ Z.of_nat x' = Z.of_nat x + dx)
  then (fun p => padd p (share e)) <$> lookup2 img y' x'
  else lookup2 img y' x'.
Proof.
  intros Hg. rewrite lookup2_deposit.
  destruct (decide (Z.of_nat y' = _ /\ _)) as [[Hy Hx]|Hne].
  - destruct (in_bounds h w (Z.of_nat y + dy) (Z.of_nat x + dx)) eqn:Hb.
    + by rewrite decide_True.
    + rewrite decide_False by (by intros [? _]).
      destruct (lookup2 img y' x') as [p|] eqn:Hp; [|done]. exfalso.
      assert (Hs : is_Some (lookup2 img y' x')) by eauto.
      destruct Hg as (Hr & <- & <-). apply lookup2_is_Some in Hs; [|done].
      assert (in_bounds (length img) (width img) (Z.of_nat y + dy) (Z.of_nat x + dx)
              = true) by (apply in_bounds_spec; lia).
      congruence.
  - rewrite decide_False; [done|]. intros (_ & ? & ?). by apply Hne.
Qed.

Lemma atkinson_step_spread h w img r y x old :
  grid h w img -> lookup2 img y x = Some old ->
  exists img',
    atkinson_pixel quantize strength h w y x (Frame img r) = (Ok tt, Frame img' r) /\
    atkinson_spread y x (quantized old) (eighth_error strength old (quantized old))
      img img'.
Proof.
  intros Hg Hold.
  assert (Hyx : (y < h)%nat /\ (x < w)%nat).
  { destruct Hg as (Hr & <- & <-). apply lookup2_is_Some; eauto. }
  destruct Hyx as [Hy Hx].
  eexists. split; [by apply run_atkinson_pixel|].
  unfold diffuse_pixel. rewrite Hold.
  unfold atkinson_kernel, atkinson_offsets. cbn [map foldl].
  set (e := eighth_error strength old (quantized old)).
  set (img0 := alter2 (fun _ => quantized old) y x img).
  assert (Hg0 : grid h w img0) by (by apply grid_alter2).
  assert (Hlook : forall y' x',
    lookup2 img0 y' x' =
    if decide (y = y' /\ x = x') then Some (quantized old) else lookup2 img y' x').
  { intros y' x'. unfold img0. rewrite lookup2_alter2.
    case_decide; [by rewrite Hold|done]. }
  split; [|split].
  - rewrite !lookup2_deposit_grid by grid_tac.
    repeat (rewrite decide_False by lia). rewrite Hlook, decide_True; done.
  - intros dy dx y' x' Hin Hy' Hx'.
    rewrite !lookup2_deposit_grid by grid_tac. rewrite Hlook.
    repeat (apply elem_of_cons in Hin as [[= -> ->] | Hin]);
      [..|by apply elem_of_nil in Hin];
      repeat first [ rewrite decide_True by lia | rewrite decide_False by lia ];
      reflexivity.
  - intros y' x' Hne Hnotin.
    rewrite !lookup2_deposit_grid by grid_tac. rewrite Hlook.
    assert (Hoff : forall dy dx, (dy, dx) ∈ [(0, 1); (0, 2); (1, -1); (1, 0); (1, 1); (2, 0)] ->
              ~ (Z.of_nat y' = Z.of_nat y + dy /\ Z.of_nat x' = Z.of_nat x + dx)).
    { intros dy dx Hin [Hy' Hx']. apply Hnotin.
      replace (Z.of_nat y' - Z.of_nat y) with dy by lia.
      replace (Z.of_nat x' - Z.of_nat x) with dx by lia. exact Hin. }
    repeat (rewrite decide_False by (apply Hoff; listed)).
    rewrite decide_False; [done|]. intros [-> ->]. done.
Qed.
End AtkinsonStep.


(** ** Ordered dithering, pixel by pixel *)

Lemma imap2_map_ext {A B C D} (f : C -> D) (g : nat -> nat -> B -> C) (h : A -> B)
    (k : nat -> nat -> A -> D) (rows : list (list A)) :
  (forall y x v, lookup2 rows y x = Some v -> f (g y x (h v)) = k y x v) ->
  map (map f) (imap2 g (map (map h) rows)) = imap2 k rows.
Proof.
  intros Hk. unfold imap2.
  change (map (map f) ?l) with (map f <$> l).
  change (map (map h) rows) with (map h <$> rows).
  rewrite fmap_imap, imap_fmap. apply imap_ext. intros y row Hrow. simpl.
  change (map f ?l) with (f <$> l). change (map h row) with (h <$> row).
  rewrite fmap_imap, imap_fmap. apply imap_ext. intros x v Hv. simpl.
  apply Hk, lookup2_Some. eauto.
Qed.

Lemma run_ordered_loop_gray m img r :
  thresholds_exist (length img) (width img) m -> rect img ->
  exists r',
    ordered_loop_gray m (Frame img r) =
    (Ok tt, Frame (imap2 (ordered_level m) img) r').
Proof.
  intros Ht Hr.
  destruct (run_pointwise_loop (ordered_pixel_gray m)
              (fun _ => ordered_level m) rng
              (fun y x p v => v = ordered_level m y x p)
              (length img) (width img)) with (img := img) (r := r)
    as (out & r' & Hrun & Hgo & Hq); [| |done|].
  - intros img' r0 y x Hg' Hy Hx. destruct (Ht y x Hy Hx) as [t Hth].
    by eapply run_ordered_pixel_gray.
  - done.
  - exists r'. unfold ordered_loop_gray.
    rewrite <- (grid_eq_imap2 (ordered_level m) (length img) (width img) img out);
      [exact Hrun|done|done|].
    intros y x. destruct (lookup2 img y x) as [p|] eqn:Hp.
    + destruct (Hq y x p Hp) as (v & -> & ->). done.
    + destruct (lookup2 out y x) as [v|] eqn:Hv; [|done]. exfalso.
      assert (Hs : is_Some (lookup2 img y x)).
      { destruct Hgo as (Hro & Hlo & Hwo). apply lookup2_is_Some; [done|].
        rewrite <- Hlo, <- Hwo. apply lookup2_is_Some; eauto. }
      rewrite Hp in Hs. by destruct Hs.
Qed.

Lemma run_ordered_loop_color m pal img r :
  thresholds_exist (length img) (width img) m -> pal <> [] -> rect img ->
  exists r',
    ordered_loop_color m (Some pal) (Frame img r) =
    (Ok tt, Frame (imap2 (ordered_entry m pal) img) r').
Proof.
  intros Ht Hpal Hr.
  destruct (run_pointwise_loop (ordered_pixel_color m (Some pal))
              (fun _ => ordered_entry m pal) rng
              (fun y x p v => v = ordered_entry m pal y x p)
              (length img) (width img)) with (img := img) (r := r)
    as (out & r' & Hrun & Hgo & Hq); [| |done|].
  - intros img' r0 y x Hg' Hy Hx. destruct (Ht y x Hy Hx) as [t Hth].
    by eapply run_ordered_pixel_color.
  - done.
  - exists r'. unfold ordered_loop_color.
    rewrite <- (grid_eq_imap2 (ordered_entry m pal) (length img) (width img) img out);
      [exact Hrun|done|done|].
    intros y x. destruct (lookup2 img y x) as [p|] eqn:Hp.
    + destruct (Hq y x p Hp) as (v & -> & ->). done.
    + destruct (lookup2 out y x) as [v|] eqn:Hv; [|done]. exfalso.
      assert (Hs : is_Some (lookup2 img y x)).
      { destruct Hgo as (Hro & Hlo & Hwo). apply lookup2_is_Some; [done|].
        rewrite <- Hlo, <- Hwo. apply lookup2_is_Some; eauto. }
      rewrite Hp in Hs. by destruct Hs.
Qed.

(** The threshold of a pixel, from its cell *)
Lemma threshold_at_cell m y x :
  matrix_size_ok m ->
  threshold_at m y x =
  B64.mul (B64.div (B64.of_Z (bayer_cell m y x)) (B64.of_Z (bayer_denominator m)))
    (B64.of_Z 255) /\
  0 <= bayer_cell m y x < bayer_denominator m.
Proof.
  intros Hm. destruct (bayer_threshold_valid m y x Hm) as (k & Hk & Ht).
  unfold threshold_at, bayer_cell. rewrite Ht, Hk. split; [done|]. simpl.
  apply lookup2_Some in Hk as (row & Hrow & Hcell).
  assert (Hall : Forall (Forall (fun k => 0 <= k < bayer_denominator m)) (bayer_cells m)).
  { destruct Hm as [-> | [-> | ->]]; vm_compute; repeat constructor; done. }
  rewrite Forall_lookup in Hall. specialize (Hall _ _ Hrow).
  rewrite Forall_lookup in Hall. by apply (Hall _ _ Hcell).
Qed.

Lemma ordered_compare_exact den k v :
  den = 4 \/ den = 16 \/ den = 64 -> 0 <= k < den -> 0 <= v <= 255 ->
  B64.gt (B64.of_f32 (B32.of_Z v))
    (B64.mul (B64.div (B64.of_Z k) (B64.of_Z den)) (B64.of_Z 255)) =
  (k * 255 <? v * den).
Proof.
  intros Hden Hk Hv.
  pose (check := fun den k v =>
    Bool.eqb
      (B64.gt (B64.of_f32 (B32.of_Z v))
         (B64.mul (B64.div (B64.of_Z k) (B64.of_Z den)) (B64.of_Z 255)))
      (k * 255 <? v * den)).
  assert (Hall : forall n, all_below n (fun k => all_below 256 (check den k)) = true ->
            Z.of_nat n = den -> check den k v = true).
  { intros n Hn Hnd.
    apply (all_below_spec 256 (check den k)); [|lia].
    apply (all_below_spec n (fun k => all_below 256 (check den k))); [done|lia]. }
  apply Bool.eqb_prop. change (check den k v = true).
  destruct Hden as [-> | [-> | ->]].
  - apply (Hall 4%nat); [vm_compute; reflexivity|done].
  - apply (Hall 16%nat); [vm_compute; reflexivity|done].
  - apply (Hall 64%nat); [vm_compute; reflexivity|done].
Qed.

Lemma bayer_denominator_ok m :
  matrix_size_ok m ->
  bayer_denominator m = 4 \/ bayer_denominator m = 16 \/ bayer_denominator m = 64.
Proof. intros [-> | [-> | ->]]; vm_compute; auto. Qed.

Lemma clip_uint8_ordered_level m y x v :
  matrix_size_ok m -> 0 <= v <= 255 ->
  clip_uint8 (ordered_level m y x (B32.of_Z v)) = spec_ordered_pixel m y x v.
Proof.
  intros Hm Hv. unfold ordered_level, spec_ordered_pixel, above_threshold.
  destruct (threshold_at_cell m y x Hm) as [-> Hcell].
  rewrite ordered_compare_exact by (done || by apply bayer_denominator_ok).
  destruct (_ <? _); reflexivity.
Qed.

(** C4 — ordered dithering in grayscale.  For a rectangular raster of 8-bit
    values and a matrix size of 2, 4 or 8, [ordered_dither] returns the
    raster whose pixel [(y, x)] is 255 if the input value there is greater
    than [bayer[y mod size][x mod size] / d * 255], for the canonical
    matrix of that size and [d] = 4, 16, 64, and 0 otherwise: a function
    of the pixel's coordinates and input value alone. *)
Theorem ordered_gray_thresholds image rows σ matrix_size palette :
  heap σ !! image = Some (U8 (Gray rows)) ->
  rect rows ->
  uint8_raster rows ->
  matrix_size_ok matrix_size ->
  returns (ordered_dither image matrix_size false palette) σ
    (U8 (Gray (spec_ordered matrix_size rows))).
Proof.
  intros Himg Hr Hu Hm. unfold ordered_dither.
  destruct (run_ordered_loop_gray matrix_size (map (map B32.of_Z) rows) (generator σ))
    as [r' Hrun].
  { intros y x _ _. destruct (bayer_threshold_valid matrix_size y x Hm) as (k & _ & Hk).
    eauto. }
  { by apply rect_map. }
  pose proof (run_gray_call image rows σ _ _ r' Himg Hrun) as Hret.
  rewrite (imap2_map_ext clip_uint8 (ordered_level matrix_size) B32.of_Z
             (spec_ordered_pixel matrix_size)) in Hret; [exact Hret|].
  intros y x v Hv. apply clip_uint8_ordered_level; [done|].
  apply lookup2_Some in Hv as (row & Hrow & Hcell).
  apply (Hu row v); apply list_elem_of_lookup; eauto.
Qed.

Lemma ordered_gray_thresholds_witness :
  returns (ordered_dither 1%positive 4 false None)
    (world_of (U8 (Gray small_image))) (U8 (Gray [[255; 255]; [255; 0]])).
Proof.
  apply (ordered_gray_thresholds 1%positive small_image
           (world_of (U8 (Gray small_image))) 4 None).
  - reflexivity.
  - apply rect_small_image.
  - intros row v Hrow Hv. unfold small_image in Hrow.
    repeat (apply elem_of_cons in Hrow as [-> | Hrow]);
      [..|by apply elem_of_nil in Hrow];
      repeat (apply elem_of_cons in Hv as [-> | Hv]);
      try lia; by apply elem_of_nil in Hv.
  - right. left. reflexivity.
Defined.

(** ** The float operations never make a NaN from a non-negative mantissa *)

Section NoNaN.
Variables prec emax : Z.

Lemma shr_1_nonneg mrs : 0 <= shr_m mrs -> 0 <= shr_m (shr_1 mrs).
Proof.
  destruct mrs as [m r s]. simpl. destruct m as [|[p|p|]|[p|p|]]; simpl; lia.
Qed.

Lemma iter_pos_nonneg n mrs :
  0 <= shr_m mrs -> 0 <= shr_m (SpecFloat.iter_pos shr_1 n mrs).
Proof.
  revert mrs. induction n as [n IH|n IH|]; intros mrs Hm; simpl.
  - apply IH, IH, shr_1_nonneg, Hm.
  - apply IH, IH, Hm.
  - apply shr_1_nonneg, Hm.
Qed.

Lemma shr_nonneg mrs e n : 0 <= shr_m mrs -> 0 <= shr_m (shr mrs e n).1.
Proof.
  intros Hm. unfold shr. destruct n; simpl; [done| |done].
  by apply iter_pos_nonneg.
Qed.

Lemma shr_fexp_nonneg m e l : 0 <= m -> 0 <= shr_m (shr_fexp prec emax m e l).1.
Proof.
  intros Hm. unfold shr_fexp. apply shr_nonneg.
  destruct l as [|[]]; simpl; done.
Qed.

Lemma round_nearest_even_nonneg m l : 0 <= m -> 0 <= round_nearest_even m l.
Proof.
  intros Hm. unfold round_nearest_even. destruct l as [|[]]; try lia.
  destruct (Z.even m); lia.
Qed.

Lemma binary_round_aux_signed s m e l :
  0 <= m -> signed s (binary_round_aux prec emax s m e l).
Proof.
  intros Hm. unfold binary_round_aux.
  pose proof (shr_fexp_nonneg m e l Hm) as H1.
  destruct (shr_fexp prec emax m e l) as [mrs' e']. simpl in H1.
  pose proof (shr_fexp_nonneg
                (round_nearest_even (shr_m mrs') (loc_of_shr_record mrs')) e'
                loc_Exact (round_nearest_even_nonneg _ _ H1)) as H2.
  destruct (shr_fexp prec emax _ e' loc_Exact) as [mrs'' e'']. simpl in H2.
  destruct (shr_m mrs'') as [|p|p]; simpl; [done| |lia].
  destruct (e'' <=? emax - prec); done.
Qed.

Lemma binary_round_signed s m e : signed s (binary_round prec emax s m e).
Proof.
  unfold binary_round. destruct (shl_align m e _) as [mz ez].
  apply binary_round_aux_signed. lia.
Qed.

Lemma binary_normalize_not_nan m e sz :
  is_nan (binary_normalize prec emax m e sz) = false.
Proof.
  unfold binary_normalize. destruct m as [|p|p]; [done|..].
  - pose proof (binary_round_signed false p e) as Hs.
    by destruct (binary_round prec emax false p e).
  - pose proof (binary_round_signed true p e) as Hs.
    by destruct (binary_round prec emax true p e).
Qed.

Lemma SFmul_square_signed x :
  is_nan x = false -> signed false (SFmul prec emax x x).
Proof.
  destruct x as [s|s| |s m e]; simpl; try done; try by destruct s.
  intros _. replace (xorb s s) with false by (by destruct s).
  apply binary_round_aux_signed. lia.
Qed.

Lemma SFadd_signed x y :
  signed false x -> signed false y -> signed false (SFadd prec emax x y).
Proof.
  destruct x as [s|s| |s m e], y as [s'|s'| |s' m' e']; simpl;
    try done; try (intros -> ->; done).
  intros -> ->. simpl.
  apply (binary_round_signed false).
Qed.

Lemma SFsqrt_not_nan x : signed false x -> is_nan (SFsqrt prec emax x) = false.
Proof.
  destruct x as [s|s| |s m e]; simpl; try done; try (by intros ->).
  intros ->. unfold SFsqrt_core_binary.
  match goal with
  | |- context [Z.sqrtrem ?a] =>
      pose proof (Z.sqrtrem_spec a) as Hspec; destruct (Z.sqrtrem a) as [q r] eqn:Hqr
  end.
  assert (Hq : 0 <= q).
  { match type of Hqr with Z.sqrtrem ?a = _ =>
      pose proof (Z.sqrtrem_sqrt a) as Hsq; rewrite Hqr in Hsq; simpl in Hsq;
      rewrite Hsq; apply Z.sqrt_nonneg end. }
  match goal with
  | |- is_nan (binary_round_aux _ _ _ ?q' ?e' ?l') = false =>
      pose proof (binary_round_aux_signed false q' e' l' Hq) as Hs;
      by destruct (binary_round_aux prec emax false q' e' l')
  end.
Qed.

Lemma SFsub_not_nan x y :
  finite_or_zero x -> is_nan y = false -> is_nan (SFsub prec emax x y) = false.
Proof.
  destruct x as [s|s| |s m e], y as [s'|s'| |s' m' e']; simpl; try done.
  - by destruct s, s'.
  - intros _ _. apply binary_normalize_not_nan.
Qed.
End NoNaN.

(** ** The order of floats *)

Lemma SFltb_key x y :
  is_nan x = false -> is_nan y = false ->
  SFltb x y = true <-> key_lt (float_key x) (float_key y).
Proof.
  unfold SFltb, SFcompare, key_lt.
  destruct x as [s|s| |s m e], y as [s'|s'| |s' m' e']; try done; intros _ _;
    try destruct s; try destruct s'; simpl;
    try (split; [done || lia | intros; lia || done]).
  all: destruct (Z.compare_spec e e'); simpl;
    try (split; [done || lia | intros; lia || done]).
  all: change (PosDef.Pos.compare_cont Eq m m') with (Pos.compare m m');
    destruct (Pos.compare_spec m m'); simpl;
    split; (done || lia).
Qed.

Lemma SFleb_key x y :
  is_nan x = false -> is_nan y = false ->
  SFleb x y = true <-> key_le (float_key x) (float_key y).
Proof.
  unfold SFleb, SFcompare, key_le, key_lt.
  destruct x as [s|s| |s m e], y as [s'|s'| |s' m' e']; try done; intros _ _;
    try destruct s; try destruct s'; simpl;
    try (split; [intros; (by right) || lia || done
                | intros [?|[=]]; lia || done]).
  all: destruct (Z.compare_spec e e'); simpl;
    try (split; [intros; lia || done | intros [?|[=]]; lia || done]).
  all: change (PosDef.Pos.compare_cont Eq m m') with (Pos.compare m m');
    destruct (Pos.compare_spec m m'); simpl;
    split; try done; try lia; try (intros _; subst; by right);
    try (intros [?|[=]]; lia).
Qed.

Lemma float_le_refl x : is_nan x = false -> float_le x x.
Proof. intros Hx. apply SFleb_key; [done..|]. by right. Qed.

Lemma float_lt_le x y :
  is_nan x = false -> is_nan y = false -> float_lt x y -> float_le x y.
Proof.
  intros Hx Hy Hlt. apply SFleb_key; [done..|]. left. by apply SFltb_key.
Qed.

Lemma float_lt_le_trans x y z :
  is_nan x = false -> is_nan y = false -> is_nan z = false ->
  float_lt x y -> float_le y z -> float_lt x z.
Proof.
  intros Hx Hy Hz Hxy%SFltb_key Hyz%SFleb_key; try done.
  apply SFltb_key; [done..|].
  destruct (float_key x) as [[a b] c], (float_key y) as [[a' b'] c'],
    (float_key z) as [[a'' b''] c''].
  unfold key_le, key_lt in *. simpl in *.
  destruct Hyz as [Hyz|[= -> -> ->]]; lia.
Qed.

Lemma float_not_le x y :
  is_nan x = false -> is_nan y = false -> SFleb x y = false -> float_lt y x.
Proof.
  intros Hx Hy Hle. apply SFltb_key; [done..|].
  destruct (SFleb x y) eqn:Hle'; [done|].
  assert (Hn : ~ key_le (float_key x) (float_key y)).
  { intros Hk. apply SFleb_key in Hk; [|done..]. congruence. }
  destruct (float_key x) as [[a b] c] eqn:Hkx, (float_key y) as [[a' b'] c'] eqn:Hky.
  unfold key_le, key_lt in *. simpl in *.
  destruct (decide (a = a' /\ b = b' /\ c = c')) as [(-> & -> & ->)|Hne].
  - exfalso. apply Hn. by right.
  - assert (~ (a < a' \/ a = a' /\ (b < b' \/ b = b' /\ c < c'))) by tauto. lia.
Qed.

(** ** What [np.argmin] returns *)

Lemma argmin_scan_first_least (ds : list spec_float) l mp min_ind i :
  Forall (fun d => is_nan d = false) ds ->
  drop i ds = l ->
  ds !! min_ind = Some mp ->
  first_least ds i min_ind ->
  first_least ds (length ds) (argmin_scan mp min_ind i l).
Proof.
  unfold f64 in *. intros Hnn. rewrite Forall_lookup in Hnn.
  revert mp min_ind i. induction l as [|d l IH]; intros mp min_ind i Hdrop Hmp Hfl.
  - simpl. assert (length ds <= i)%nat.
    { apply (f_equal length) in Hdrop. rewrite length_drop in Hdrop.
      simpl in Hdrop. lia. }
    destruct Hfl as (Hlt & mp' & Hmp' & Hall). split; [|exists mp'; split; [done|]].
    + apply lookup_lt_Some in Hmp'. lia.
    + intros j dj Hj Hdj. apply Hall; [|done]. apply lookup_lt_Some in Hdj. lia.
  - assert (Hi : ds !! i = Some d).
    { rewrite <- (Nat.add_0_r i), <- lookup_drop, Hdrop. done. }
    assert (Hdrop' : drop (S i) ds = l).
    { replace (S i) with (i + 1)%nat by lia. rewrite <- drop_drop, Hdrop. done. }
    destruct Hfl as (Hlt & mp' & Hmp' & Hall).
    assert (mp' = mp) as ->.
    { unfold f64 in *. rewrite Hmp in Hmp'. by injection Hmp'. }
    pose proof (Hnn _ _ Hi) as Hd. pose proof (Hnn _ _ Hmp) as Hm.
    simpl. rewrite Hd. unfold B64.ge.
    destruct (SFleb mp d) eqn:Hle; simpl.
    + apply IH; [done..|]. split; [lia|]. exists mp. split; [done|].
      intros j dj Hj Hdj. destruct (decide (j = i)) as [->|Hne].
      * rewrite Hi in Hdj. injection Hdj as <-. split; [done|lia].
      * apply Hall; [lia|done].
    + apply float_not_le in Hle; [|done..].
      apply IH; [done..|]. split; [lia|]. exists d. split; [done|].
      intros j dj Hj Hdj. pose proof (Hnn _ _ Hdj) as Hdjn.
      destruct (decide (j = i)) as [->|Hne].
      * rewrite Hi in Hdj. injection Hdj as <-.
        split; [by apply float_le_refl|lia].
      * destruct (Hall j dj ltac:(lia) Hdj) as [Hle' _].
        assert (float_lt d dj).
        { apply (float_lt_le_trans d mp dj); done. }
        split; [by apply float_lt_le|done].
Qed.

Lemma np_argmin_first_least (ds : list spec_float) :
  Forall (fun d => is_nan d = false) ds -> ds <> [] ->
  exists k, np_argmin ds = Ok k /\ first_least ds (length ds) k.
Proof.
  intros Hnn Hne. destruct ds as [|d ds']; [done|].
  assert (Hd : is_nan d = false) by (by apply Forall_cons in Hnn as [? _]).
  simpl. rewrite Hd. eexists. split; [done|].
  apply (argmin_scan_first_least (d :: ds') ds' d 0 1); [done..| ].
  split; [lia|]. exists d. split; [done|].
  intros j dj Hj Hdj. assert (j = 0)%nat as -> by lia.
  injection Hdj as <-. split; [by apply float_le_refl|lia].
Qed.

(** ** The mean of an 8-bit color against the threshold *)

Lemma sum_exact a b :
  0 <= a <= 510 -> 0 <= b <= 255 ->
  B32.add (B32.of_Z a) (B32.of_Z b) = B32.of_Z (a + b).
Proof.
  intros Ha Hb. apply spec_float_eqb_eq.
  assert (Hall : all_below 511 (sum_check 256) = true) by (vm_compute; reflexivity).
  pose proof (all_below_spec _ _ Hall a ltac:(lia)) as Hrow.
  unfold sum_check in Hrow.
  apply (all_below_spec _ _ Hrow b). lia.
Qed.

Lemma mean_compare_exact den k s :
  den = 4 \/ den = 16 \/ den = 64 -> 0 <= k < den -> 0 <= s <= 765 ->
  B64.gt (B64.of_f32 (B32.div (B32.of_Z s) (B32.of_Z 3)))
    (B64.mul (B64.div (B64.of_Z k) (B64.of_Z den)) (B64.of_Z 255)) =
  (k * 255 * 3 <? s * den).
Proof.
  intros Hden Hk Hs.
  assert (Hall : all_below (Z.to_nat den) (mean_check den) = true).
  { destruct Hden as [-> | [-> | ->]]; vm_compute; reflexivity. }
  apply Bool.eqb_prop.
  pose proof (all_below_spec _ _ Hall k ltac:(lia)) as Hrow.
  unfold mean_check in Hrow. cbv zeta in Hrow.
  apply (all_below_spec _ _ Hrow s). lia.
Qed.

Lemma mean3_above m y x p :
  matrix_size_ok m -> color_ok p ->
  B64.gt (B64.of_f32 (mean3 (map3 B32.of_Z p))) (threshold_at m y x) =
  mean_above m y x p.
Proof.
  intros Hm Hp. destruct p as [[r g] b]. destruct Hp as (Hr & Hg & Hb).
  unfold channel_ok in *. simpl in *.
  destruct (threshold_at_cell m y x Hm) as [-> Hcell].
  unfold mean3, mean_above. simpl.
  rewrite sum_exact by lia. rewrite sum_exact by lia.
  apply mean_compare_exact; [by apply bayer_denominator_ok|done|lia].
Qed.

(** ** The distances of an 8-bit color are numbers *)

Lemma pixel64_finite v :
  channel_ok v -> finite_or_zero (B64.of_f32 (B32.of_Z v)).
Proof.
  intros Hv. unfold channel_ok in Hv.
  assert (Hb : match B64.of_f32 (B32.of_Z v) with
               | S754_zero _ | S754_finite _ _ _ => true | _ => false end = true).
  { apply (all_below_spec 256 (fun v =>
      match B64.of_f32 (B32.of_Z v) with
      | S754_zero _ | S754_finite _ _ _ => true | _ => false end));
      [vm_compute; reflexivity|lia]. }
  by destruct (B64.of_f32 (B32.of_Z v)).
Qed.

Lemma norm3_not_nan a b c :
  is_nan a = false -> is_nan b = false -> is_nan c = false ->
  is_nan (norm3 (a, b, c)) = false.
Proof.
  intros Ha Hb Hc. unfold norm3, B64.sqrt, B64.add, B64.mul.
  apply SFsqrt_not_nan. repeat apply SFadd_signed; by apply SFmul_square_signed.
Qed.

Lemma distances_not_nan p pal :
  color_ok p -> Forall (fun d => is_nan d = false) (distances (pixel64 p) pal).
Proof.
  intros Hp. unfold distances. apply Forall_forall. intros d Hd.
  change (map ?f pal) with (f <$> pal) in Hd.
  apply list_elem_of_fmap in Hd as (color & -> & _).
  destruct p as [[r g] b], color as [[cr cg] cb]. destruct Hp as (Hr & Hg & Hb).
  simpl in *. apply norm3_not_nan; unfold B64.sub;
    (apply SFsub_not_nan; [by apply pixel64_finite|apply binary_normalize_not_nan]).
Qed.

Lemma nearest_index_first_least p pal :
  color_ok p -> pal <> [] ->
  first_least (distances (pixel64 p) pal) (length pal) (nearest_index pal (pixel64 p)).
Proof.
  intros Hp Hpal.
  destruct (np_argmin_first_least (distances (pixel64 p) pal)) as (k & Hk & Hfl).
  - by apply distances_not_nan.
  - unfold distances. by destruct pal.
  - unfold nearest_index. rewrite Hk.
    unfold distances in Hfl at 2. rewrite length_map in Hfl. exact Hfl.
Qed.

Lemma clip_uint8_ordered_entry m pal y x p :
  matrix_size_ok m -> pal <> [] -> Forall color_ok pal -> color_ok p ->
  map3 clip_uint8 (ordered_entry m pal y x (map3 B32.of_Z p)) =
  spec_ordered_color m pal y x p.
Proof.
  intros Hm Hne Hpal Hp.
  assert (Hentry : forall i, (i < length pal)%nat ->
            map3 clip_uint8 (entry_at pal i) = default (0, 0, 0) (pal !! i)).
  { intros i Hi. destruct (lookup_lt_is_Some_2 pal i Hi) as [c Hc].
    unfold entry_at. transitivity c.
    - rewrite Hc. apply clip_uint8_color. rewrite Forall_lookup in Hpal. eauto.
    - symmetry. exact (f_equal (default (0, 0, 0)) Hc). }
  unfold ordered_entry, spec_ordered_color, spec_ordered_index.
  destruct (Nat.eqb_spec (length pal) 2) as [Hlen|Hlen].
  - rewrite mean3_above by done.
    destruct (mean_above m y x p); apply Hentry; lia.
  - assert (Hpx : map3 B64.of_f32 (map3 B32.of_Z p) = pixel64 p).
    { by destruct p as [[r g] b]. }
    rewrite Hpx. unfold nearest_entry.
    pose proof (nearest_index_lt pal (pixel64 p) Hne) as Hlt.
    destruct (lookup_lt_is_Some_2 pal _ Hlt) as [c Hc]. transitivity c.
    + rewrite Hc. apply clip_uint8_color. rewrite Forall_lookup in Hpal. eauto.
    + symmetry. exact (f_equal (default (0, 0, 0)) Hc).
Qed.

(** C5 — ordered dithering in color.  For a rectangular raster of 8-bit
    colors, a matrix size of 2, 4 or 8 and a palette of the data model,
    [ordered_dither] returns the raster whose pixel [(y, x)] is the palette
    entry of index [spec_ordered_index]: for a palette of two entries,
    entry 1 if the mean of the three channels is greater than the Bayer
    threshold and entry 0 otherwise; for any other palette, whatever the
    threshold, the entry [np.argmin] picks among the Euclidean distances
    [np.linalg.norm] gives, which is the first entry of least distance. *)
Theorem ordered_color_selects image rows σ matrix_size palette :
  heap σ !! image = Some (U8 (Color rows)) ->
  rect rows ->
  uint8_color_raster rows ->
  matrix_size_ok matrix_size ->
  palette_ok palette ->
  let pal := active_palette palette in
  returns (ordered_dither image matrix_size true palette) σ
    (U8 (Color (imap2 (spec_ordered_color matrix_size pal) rows))) /\
  (forall y x p, length pal = 2%nat ->
     spec_ordered_index matrix_size pal y x p =
     if mean_above matrix_size y x p then 1%nat else 0%nat) /\
  (forall y x p, length pal <> 2%nat -> color_ok p ->
     first_least (distances (pixel64 p) pal) (length pal)
       (spec_ordered_index matrix_size pal y x p)).
Proof.
  intros Himg Hr Hu Hm Hpal pal.
  destruct (active_palette_ok palette Hpal) as [Hne Hok]. fold pal in Hne, Hok.
  split; [|split].
  - unfold ordered_dither. rewrite palette_or_default_active. fold pal.
    destruct (run_ordered_loop_color matrix_size pal
                (map (map (map3 B32.of_Z)) rows) (generator σ)) as [r' Hrun].
    { intros y x _ _.
      destruct (bayer_threshold_valid matrix_size y x Hm) as (k & _ & Hk). eauto. }
    { done. }
    { by apply rect_map. }
    pose proof (run_color_call image rows σ _ _ r' Himg Hrun) as Hret.
    rewrite (imap2_map_ext (map3 clip_uint8) (ordered_entry matrix_size pal)
               (map3 B32.of_Z) (spec_ordered_color matrix_size pal)) in Hret;
      [exact Hret|].
    intros y x p Hp. apply clip_uint8_ordered_entry; try done.
    apply lookup2_Some in Hp as (row & Hrow & Hcell).
    apply (Hu row p); apply list_elem_of_lookup; eauto.
  - intros y x p Hlen. unfold spec_ordered_index.
    by destruct (Nat.eqb_spec (length pal) 2).
  - intros y x p Hlen Hp. unfold spec_ordered_index.
    destruct (Nat.eqb_spec (length pal) 2); [done|].
    by apply nearest_index_first_least.
Qed.

Lemma ordered_color_selects_witness :
  let pal := active_palette None in
  returns (ordered_dither 1%positive 4 true None)
    (world_of (U8 (Color [[(100, 20, 30); (200, 200, 10)]])))
    (U8 (Color (imap2 (spec_ordered_color 4 pal) [[(100, 20, 30); (200, 200, 10)]]))) /\
  (forall y x p, length pal = 2%nat ->
     spec_ordered_index 4 pal y x p = if mean_above 4 y x p then 1%nat else 0%nat) /\
  (forall y x p, length pal <> 2%nat -> color_ok p ->
     first_least (distances (pixel64 p) pal) (length pal)
       (spec_ordered_index 4 pal y x p)).
Proof.
  apply (ordered_color_selects 1%positive [[(100, 20, 30); (200, 200, 10)]]
           (world_of (U8 (Color [[(100, 20, 30); (200, 200, 10)]]))) 4 None).
  - reflexivity.
  - unfold rect. simpl. repeat constructor.
  - intros row p Hrow Hp.
    repeat (apply elem_of_cons in Hrow as [-> | Hrow]);
      [..|by apply elem_of_nil in Hrow];
      repeat (apply elem_of_cons in Hp as [-> | Hp]);
      try (unfold color_ok, channel_ok; simpl; lia); by apply elem_of_nil in Hp.
  - right. left. reflexivity.
  - exact I.
Defined.
